(** * taggo: Exuberant-Ctags compatible tags for Go source

    A shallow embedding of [main.go] and the properties of its
    declaration classifier, line resolver, tag synthesizer and tag
    emission.

    Conventions of the embedding:
    - a Go [string] is a [string] (a sequence of bytes), a [[]byte] is a
      [list byte];
    - a Go [int] is a [Z] in the 64-bit signed range, and [ln++] wraps;
    - the process-wide slice [tags] is threaded explicitly through the
      functions that append to it;
    - a Go [map] is a [gmap]; ranging over it visits its entries in an
      order the language leaves open, so a traversal takes that order as
      an argument and is constrained to be a permutation of the entries;
    - an index out of range panics: functions that can panic return an
      [option], [None] being the panic. *)

From Stdlib Require Import ZArith Ascii String List Lia Bool.
From Stdlib Require Import Strings.Byte.
From stdpp Require Import base option list sorting strings gmap fin_maps.

Local Open Scope Z_scope.

(** A concrete list of bytes holds no newline. *)
Ltac no_newline :=
  let H := fresh in
  intros H; apply list_elem_of_In in H; vm_compute in H; intuition discriminate.

(** ** Characters that Rocq string literals cannot escape *)

Definition TAB : ascii := "009"%char.
Definition NL : ascii := "010"%char.
Definition DQUOTE : ascii := "034"%char.

Definition str (c : ascii) : string := String c EmptyString.

(** ** Go's [int]: 64-bit two's complement *)

Module GoInt.

Definition min_int : Z := -9223372036854775808.
Definition max_int : Z := 9223372036854775807.
Definition modulus : Z := 18446744073709551616.

Definition in_range (z : Z) : Prop := min_int <= z <= max_int.

(** Reduction of a mathematical integer to its 64-bit signed value. *)
Definition wrap (z : Z) : Z := (z - min_int) mod modulus + min_int.

(** [ln++] *)
Definition incr (z : Z) : Z := wrap (z + 1).

End GoInt.

(** ** The part of [fmt] the program uses

    [Sprintf] interprets the verbs [%s] (a string or a byte slice,
    copied byte for byte) and [%c] (a rune; every rune the program
    formats is below 128, so it is one byte).  A verb with no operand
    left, or with an operand of the wrong sort, is rendered as a
    bad-verb marker, as [fmt] does; the program never does so. *)

Inductive Arg : Type :=
  | ArgString (s : string)
  | ArgBytes (b : list byte)
  | ArgRune (c : ascii).

Definition formatVerb (verb : ascii) (a : Arg) : string :=
  match a with
  | ArgString s => if Ascii.eqb verb "s" then s else "%!" +:+ str verb +:+ "(string)"
  | ArgBytes b =>
      if Ascii.eqb verb "s" then string_of_list_byte b else "%!" +:+ str verb +:+ "([]uint8)"
  | ArgRune c => if Ascii.eqb verb "c" then str c else "%!" +:+ str verb +:+ "(int32)"
  end.

Fixpoint Sprintf (format : string) (args : list Arg) : string :=
  match format with
  | EmptyString => EmptyString
  | String c rest =>
      if Ascii.eqb c "%" then
        match rest with
        | EmptyString => "%!(NOVERB)"
        | String verb rest' =>
            match args with
            | a :: args' => formatVerb verb a +:+ Sprintf rest' args'
            | [] => "%!" +:+ str verb +:+ "(MISSING)" +:+ Sprintf rest' []
            end
        end
      else String c (Sprintf rest args)
  end.

(** ** Constants of the program *)

Definition TAG_FILE_FORMAT : string := "!_TAG_FILE_FORMAT" +:+ str TAB +:+ "2".
Definition TAG_FILE_SORTED : string := "!_TAG_FILE_SORTED" +:+ str TAB +:+ "1".
Definition TAG_PROGRAM_AUTHOR : string :=
  "!_TAG_PROGRAM_AUTHOR" +:+ str TAB +:+ "Arjen Laarhoven".
Definition TAG_PROGRAM_NAME : string := "!_TAG_PROGRAM_NAME" +:+ str TAB +:+ "taggo".
Definition TAG_PROGRAM_URL : string :=
  "!_TAG_PROGRAM_URL" +:+ str TAB +:+ "https://github.com/ArjenL/taggo".

Definition CLASS : ascii := "c"%char.
Definition CONST : ascii := "d"%char.
Definition FUNC : ascii := "f"%char.
Definition MEMBER : ascii := "m"%char.
Definition STRUCT : ascii := "s"%char.
Definition TYPE : ascii := "t"%char.
Definition VAR : ascii := "v"%char.

(** The zero value of a [rune], the kind of a value specification whose
    declaration keyword is neither [const] nor [var]. *)
Definition zeroRune : ascii := "000"%char.

(** ** Positions ([go/token]) *)

Definition Pos : Type := Z.

Record Position : Type := mkPosition { Filename : string; Line : Z }.

(** ** Reading a file line by line ([bufio]) *)

Definition newline : byte := x0a.

(** [r.ReadBytes(delim)] on the unread bytes [r]: the bytes up to and
    including the first [delim], whether the end of the input was hit
    before a [delim] was found ([err == io.EOF]), and the bytes left. *)
Fixpoint ReadBytes (delim : byte) (r : list byte) : list byte * bool * list byte :=
  match r with
  | [] => ([], true, [])
  | b :: r' =>
      if Byte.eqb b delim then ([b], false, r')
      else let '(cl, eof, rest) := ReadBytes delim r' in (b :: cl, eof, rest)
  end.

(** The [for] loop of [contentOfLine]; one unit of [fuel] is one
    iteration, that is one call of [ReadBytes].  [None]: the loop has
    not returned within [fuel] iterations. *)
Fixpoint scanLines (fuel : nat) (r : list byte) (ln line : Z) : option (list byte) :=
  match fuel with
  | O => None
  | S fuel' =>
      let '(cl, eof, r') := ReadBytes newline r in
      if eof && (ln <? line) then Some []
      else if ln =? line then
        Some (if (0 <? length cl)%nat then take (length cl - 1) cl else cl)
      else scanLines fuel' r' (GoInt.incr ln) line
  end.

(** The number of iterations after which the loop has returned, whatever
    the file holds: the counter starts at 1 and reaches [line] after
    [line - 1] increments modulo 2^64. *)
Definition scanBound (line : Z) : nat := S (Z.to_nat ((line - 1) mod GoInt.modulus)).

(** ** Syntax trees ([go/ast])

    The nodes the program inspects, with the positions it reads.  An
    identifier is its position and its name; the type expressions are
    those of the Go grammar. *)

Record Ident : Type := mkIdent { NamePos : Pos; Name : string }.

Local Unset Elimination Schemes.

Inductive Expr : Type :=
  | BadExpr (From : Pos)
  | IdentExpr (id : Ident)
  | Ellipsis (Dots : Pos) (Elt : option Expr)
  | ParenExpr (Lparen : Pos) (X : Expr)
  | SelectorExpr (X : Expr) (Sel : Ident)
  | StarExpr (Star : Pos) (X : Expr)
  | ArrayType (Lbrack : Pos) (Len : option Expr) (Elt : Expr)
  | StructType (Struct : Pos) (Fields : FieldList)
  | FuncType (Func : Pos) (Params : FieldList)
  | InterfaceType (Interface : Pos) (Methods : FieldList)
  | MapType (Map : Pos) (Key : Expr) (Value : Expr)
  | ChanType (Begin : Pos) (Value : Expr)
with Field : Type :=
  | mkField (Names : list Ident) (FType : Expr)
with FieldList : Type :=
  | mkFieldList (Opening : Pos) (List : list Field) (Closing : Pos).

Local Set Elimination Schemes.

Definition Names (f : Field) : list Ident := let '(mkField names _) := f in names.
Definition FType (f : Field) : Expr := let '(mkField _ typ) := f in typ.
Definition List (fl : FieldList) : list Field := let '(mkFieldList _ l _) := fl in l.

(** [Pos()] of an expression node: the position of its first character. *)
Fixpoint Expr_Pos (x : Expr) : Pos :=
  match x with
  | BadExpr from => from
  | IdentExpr id => NamePos id
  | Ellipsis dots _ => dots
  | ParenExpr lparen _ => lparen
  | SelectorExpr x' _ => Expr_Pos x'
  | StarExpr star _ => star
  | ArrayType lbrack _ _ => lbrack
  | StructType struct _ => struct
  | FuncType func _ => func
  | InterfaceType interface _ => interface
  | MapType map _ _ => map
  | ChanType begin _ => begin
  end.

Record TypeSpec : Type := mkTypeSpec { TSName : Ident; TSType : Expr }.

(** A value specification: the identifiers it declares. *)
Record ValueSpec : Type := mkValueSpec { VSNames : list Ident }.

Inductive Spec : Type :=
  | ImportSpecNode (path : string)
  | ValueSpecNode (vs : ValueSpec)
  | TypeSpecNode (ts : TypeSpec).

Inductive Token : Type := IMPORT_tok | CONST_tok | TYPE_tok | VAR_tok.

(** A function declaration: [FDPos] is what [decl.Pos()] returns, the
    position of the [func] keyword. *)
Record FuncDecl : Type := mkFuncDecl {
  Recv : option FieldList;
  FDName : Ident;
  FDPos : Pos
}.

Record GenDecl : Type := mkGenDecl { Tok : Token; Specs : list Spec }.

Inductive Decl : Type :=
  | BadDeclNode (From : Pos)
  | FuncDeclNode (d : FuncDecl)
  | GenDeclNode (d : GenDecl).

(** A parsed file: the name of its package and its top-level declarations. *)
Record File : Type := mkFile { PkgName : Ident; Decls : list Decl }.

(** ** [typeName] *)

Fixpoint typeName (typ : Expr) : string :=
  let typ :=
    match typ with
    | StarExpr _ x => x
    | _ => typ
    end in
  match typ with
  | IdentExpr id => Name id
  | SelectorExpr x sel => typeName x +:+ "." +:+ Name sel
  | _ => EmptyString
  end.

(** ** The program

    A run reads three things from its environment: the position table
    the parser has filled ([fset.Position]), the files it can open
    ([os.Open]; [None] when the open fails) and the parser itself
    ([parser.ParseFile]). *)

Definition error : Type := string.

Inductive ParseResult : Type :=
  | Parsed (src : File)
  | ParseError (err : error).

Record Package : Type := mkPackage { PName : string; Files : gmap string File }.

(** [for _, x := range l { f(x) }] over a slice, where the body may
    panic: the panic ends the loop. *)
Fixpoint forEach {A : Type} (f : A -> list string -> option (list string))
    (l : list A) (tags : list string) : option (list string) :=
  match l with
  | [] => Some tags
  | x :: l' => tags' ← f x tags; forEach f l' tags'
  end.

Definition Println (s : string) (stdout : string) : string := stdout +:+ s +:+ str NL.

Definition Printf (format : string) (args : list Arg) (stdout : string) : string :=
  stdout +:+ Sprintf format args.

Definition printTagsHeader (stdout : string) : string :=
  let stdout := Println TAG_FILE_FORMAT stdout in
  let stdout := Println TAG_FILE_SORTED stdout in
  let stdout := Println TAG_PROGRAM_AUTHOR stdout in
  let stdout := Println TAG_PROGRAM_NAME stdout in
  Println TAG_PROGRAM_URL stdout.

(** [sort.Strings]: the strings in increasing byte-wise order.  The
    order is total and antisymmetric, so the sorted slice does not
    depend on the sorting algorithm. *)
Definition sort_Strings (a : list string) : list string := merge_sort String.le a.

Definition tagFormat : string :=
  "%s" +:+ str TAB +:+ "%s" +:+ str TAB +:+ "/^%s$/;" +:+ str DQUOTE +:+ str TAB
  +:+ "%c" +:+ str TAB +:+ "%s".

(** ** Tag records

    A tag record as the tag file presents it: the symbol, the file, the
    text of the source line, the kind and the scope.  [tagLine] writes
    the five fields with a tab between them. *)

Record TagRecord : Type := mkTag {
  tagName : string;
  tagFile : string;
  tagContent : list byte;
  tagKind : ascii;
  tagScope : string
}.

Definition searchPattern (content : list byte) : string :=
  "/^" +:+ string_of_list_byte content +:+ "$/;" +:+ str DQUOTE.

Definition tagFields (r : TagRecord) : list string :=
  [tagName r; tagFile r; searchPattern (tagContent r); str (tagKind r); tagScope r].

Definition tagLine (r : TagRecord) : string := String.concat (str TAB) (tagFields r).

Definition countKind (kind : ascii) (recs : list TagRecord) : nat :=
  length (filter (fun r => tagKind r = kind) recs).

(** The identifiers of all the groups of a field list, in order. *)
Definition fieldNames (fl : FieldList) : list Ident := concat (map Names (List fl)).

(** The number of named fields (or methods) of a field list. *)
Definition namedCount (fl : FieldList) : nat :=
  sum_list (map (fun f => length (Names f)) (List fl)).

(** A chain of selectors [base.s1.s2...sn], as the parser builds it. *)
Definition selectorChain (base : Ident) (sels : list Ident) : Expr :=
  foldl SelectorExpr (IdentExpr base) sels.



(** Ranging over a map visits its entries in an order that the language
    leaves open and that changes from run to run.  A run is given the
    order it meets: for each map, a list of the entries of that map. *)
Record RangeOrder : Type := mkRangeOrder {
  rangePkgs : gmap string Package -> list (string * Package);
  rangeFiles : gmap string File -> list (string * File)
}.

Definition validOrder (o : RangeOrder) : Prop :=
  (forall m, rangePkgs o m ≡ₚ map_to_list m) /\
  (forall m, rangeFiles o m ≡ₚ map_to_list m).

(** The number of lines of a file: its newline-terminated lines, and
    one more when bytes follow the last newline. *)
Fixpoint lineCount (r : list byte) : nat :=
  match r with
  | [] => 0
  | b :: r' =>
      if Byte.eqb b newline then S (lineCount r')
      else match r' with
           | [] => 1
           | _ :: _ => lineCount r'
           end
  end.

(** [p.IsValid()]: a position is valid when its line number is positive. *)
Definition IsValid (p : Position) : bool := 0 <? Line p.


(** The text of a sequence of lines, each followed by a newline. *)
Definition unlines (lines : list string) : string :=
  foldr (fun t s => t +:+ str NL +:+ s) EmptyString lines.

Definition headerLines : list string :=
  [TAG_FILE_FORMAT; TAG_FILE_SORTED; TAG_PROGRAM_AUTHOR; TAG_PROGRAM_NAME; TAG_PROGRAM_URL].


(** ** A small source tree to run the program on

    [point.go] declares a struct with two fields and a method with a
    pointer receiver; its last line has no newline after it.  [abc.go]
    holds the three bytes [abc].  [broken.go] does not parse, and
    [gone.go] parses but cannot be opened any more. *)

Definition pointSource : list byte :=
  list_byte_of_string
    ("package geom" +:+ str NL
     +:+ "type Point struct { X int; Y int }" +:+ str NL
     +:+ "func (p *Point) String() string { return name }").

Definition exampleOpen (file : string) : option (list byte) :=
  if String.eqb file "point.go" then Some pointSource
  else if String.eqb file "abc.go" then Some (list_byte_of_string "abc")
  else if String.eqb file "const.go" then
    Some (list_byte_of_string ("package geom" +:+ str NL +:+ "const MaxRetries = 5" +:+ str NL))
  else None.

(** Positions of the example: the file in the thousands, the line in the
    units; position 0 is [token.NoPos]. *)
Definition examplePosition (pos : Pos) : Position :=
  if pos =? 0 then mkPosition EmptyString 0
  else if pos <? 1000 then mkPosition "point.go" pos
  else if pos <? 2000 then mkPosition "const.go" (pos - 1000)
  else mkPosition "gone.go" (pos - 2000).

Definition ident (name : string) (pos : Pos) : Ident := mkIdent pos name.

Definition pointReceiver : FieldList :=
  mkFieldList 3 [mkField [ident "p" 3] (StarExpr 3 (IdentExpr (ident "Point" 3)))] 3.

Definition stringMethod : FuncDecl := mkFuncDecl (Some pointReceiver) (ident "String" 3) 3.

Definition pointSpec : TypeSpec :=
  mkTypeSpec (ident "Point" 2)
    (StructType 2
       (mkFieldList 2
          [mkField [ident "X" 2] (IdentExpr (ident "int" 2));
           mkField [ident "Y" 2] (IdentExpr (ident "int" 2))] 2)).

Definition pointFile : File :=
  mkFile (ident "geom" 1)
    [GenDeclNode (mkGenDecl TYPE_tok [TypeSpecNode pointSpec]);
     FuncDeclNode stringMethod].

Definition constFile : File :=
  mkFile (ident "geom" 1001)
    [GenDeclNode (mkGenDecl CONST_tok [ValueSpecNode (mkValueSpec [ident "MaxRetries" 1002])])].

Definition goneFile : File :=
  mkFile (ident "lost" 2001)
    [FuncDeclNode (mkFuncDecl None (ident "Vanished" 2007) 2007)].

Definition exampleParser (filename : string) : ParseResult :=
  if String.eqb filename "point.go" then Parsed pointFile
  else if String.eqb filename "const.go" then Parsed constFile
  else if String.eqb filename "gone.go" then Parsed goneFile
  else ParseError "expected declaration".

(** Two orders of ranging over a map: the one of [map_to_list] and its
    reverse. *)
Definition forwardOrder : RangeOrder := mkRangeOrder map_to_list map_to_list.

Definition backwardOrder : RangeOrder :=
  mkRangeOrder (fun m => reverse (map_to_list m)) (fun m => reverse (map_to_list m)).


Definition exampleFiles : list string := ["point.go"; "broken.go"; "const.go"; "gone.go"].

(** The tag lines of the example tree, in the order they are printed. *)
Definition exampleTags : list string :=
  ["MaxRetries" +:+ str TAB +:+ "const.go" +:+ str TAB
   +:+ "/^const MaxRetries = 5$/;" +:+ str DQUOTE +:+ str TAB +:+ "d" +:+ str TAB;
   "Point" +:+ str TAB +:+ "point.go" +:+ str TAB
   +:+ "/^type Point struct { X int; Y int }$/;" +:+ str DQUOTE
   +:+ str TAB +:+ "s" +:+ str TAB;
   "String" +:+ str TAB +:+ "point.go" +:+ str TAB
   +:+ "/^func (p *Point) String() string { return name $/;" +:+ str DQUOTE
   +:+ str TAB +:+ "f" +:+ str TAB +:+ "class:Point";
   "Vanished" +:+ str TAB +:+ "gone.go" +:+ str TAB
   +:+ "/^$/;" +:+ str DQUOTE +:+ str TAB +:+ "f" +:+ str TAB;
   "X" +:+ str TAB +:+ "point.go" +:+ str TAB
   +:+ "/^type Point struct { X int; Y int }$/;" +:+ str DQUOTE
   +:+ str TAB +:+ "m" +:+ str TAB +:+ "struct:Point";
   "Y" +:+ str TAB +:+ "point.go" +:+ str TAB
   +:+ "/^type Point struct { X int; Y int }$/;" +:+ str DQUOTE
   +:+ str TAB +:+ "m" +:+ str TAB +:+ "struct:Point"].


(** The bytes of a sequence of lines, each followed by a newline. *)
Definition terminated (ls : list (list byte)) : list byte :=
  concat (map (fun l => l ++ [newline]) ls).


(** Whether a string holds a given byte. *)
Fixpoint contains (c : ascii) (s : string) : bool :=
  match s with
  | EmptyString => false
  | String c' s' => Ascii.eqb c' c || contains c s'
  end.

(** The lines of a text, as a reader of the tag file sees them: the
    pieces between the newlines, [cur] being the beginning of the line
    that is being read. *)
Fixpoint splitLinesFrom (cur : string) (s : string) : list string :=
  match s with
  | EmptyString => match cur with EmptyString => [] | _ => [cur] end
  | String c s' =>
      if Ascii.eqb c NL then cur :: splitLinesFrom EmptyString s'
      else splitLinesFrom (cur +:+ str c) s'
  end.

Definition outputLines (out : string) : list string := splitLinesFrom EmptyString out.


(** ** Finding the files ([os], [path/filepath], [strings])

    What [os.Stat] tells about a file: its base name and its mode bits. *)

Record FileInfo : Type := mkFileInfo { fiName : string; fiMode : Z }.

Module FileMode.

Definition ModeDir : Z := Z.shiftl 1 31.
Definition ModeSymlink : Z := Z.shiftl 1 27.
Definition ModeDevice : Z := Z.shiftl 1 26.
Definition ModeNamedPipe : Z := Z.shiftl 1 25.
Definition ModeSocket : Z := Z.shiftl 1 24.
Definition ModeCharDevice : Z := Z.shiftl 1 21.
Definition ModeIrregular : Z := Z.shiftl 1 19.

Definition ModeType : Z :=
  Z.lor ModeDir
    (Z.lor ModeSymlink
       (Z.lor ModeNamedPipe
          (Z.lor ModeSocket (Z.lor ModeDevice (Z.lor ModeCharDevice ModeIrregular))))).

(** [m.IsRegular()] *)
Definition IsRegular (m : Z) : bool := Z.land m ModeType =? 0.

(** [m.IsDir()] *)
Definition IsDir (m : Z) : bool := negb (Z.land m ModeDir =? 0).

End FileMode.

(** The loop of [filepath.Ext], from the last byte down to the first:
    [n] is the index of the byte that is looked at, plus one. *)
Fixpoint ExtLoop (n : nat) (path : string) : string :=
  match n with
  | O => EmptyString
  | S i =>
      match String.get i path with
      | Some c =>
          if Ascii.eqb c "/" then EmptyString
          else if Ascii.eqb c "." then String.substring i (String.length path - i) path
          else ExtLoop i path
      | None => EmptyString
      end
  end.

(** [filepath.Ext]: the suffix that begins at the last dot of the last
    element of the path, empty when that element has no dot. *)
Definition Ext (path : string) : string := ExtLoop (String.length path) path.

(** [strings.HasSuffix] *)
Definition HasSuffix (s suffix : string) : bool :=
  (String.length suffix <=? String.length s)%nat
  && String.eqb
       (String.substring (String.length s - String.length suffix) (String.length suffix) s)
       suffix.

(** The file system as the first loop of [parseFiles] sees it:
    [os_Stat] is [None] when [os.Stat] fails; [filepath_Walk root] lists
    the calls that [filepath.Walk] makes to a walk function that always
    returns [nil], one per file or directory of the tree, with its path
    and its [FileInfo], which is missing when the root cannot be
    examined. *)
Record FileSystem : Type := mkFileSystem {
  os_Stat : string -> option FileInfo;
  filepath_Walk : string -> list (string * option FileInfo)
}.

(** [walker]: [fi.Mode()] on a missing [FileInfo] panics. *)
Definition walker (path : string) (fi : option FileInfo) (files : list string)
    : option (list string) :=
  fi ← fi;
  Some (if (Z.land (fiMode fi) FileMode.ModeType =? 0) && HasSuffix (fiName fi) ".go"
        then files ++ [path]
        else files).

(** The first loop of [parseFiles], which fills the process-wide slice
    [files] from the command-line arguments. *)
Definition expandSubdirs (env : FileSystem) (recurseSubdirs : bool) (args : list string)
    (files : list string) : option (list string) :=
  forEach (fun fn files =>
             match os_Stat env fn with
             | None => Some files
             | Some fi =>
                 let files :=
                   if FileMode.IsRegular (fiMode fi) && String.eqb (Ext fn) ".go"
                   then files ++ [fn]
                   else files in
                 if recurseSubdirs && FileMode.IsDir (fiMode fi)
                 then forEach (fun entry files => walker entry.1 entry.2 files)
                              (filepath_Walk env (fiName fi)) files
                 else Some files
             end)
          args files.

(** ** Counting the symbols of a declaration *)

Definition typeSymbols (t : Expr) : nat :=
  match t with
  | StructType _ fields => S (namedCount fields)
  | InterfaceType _ methods => S (namedCount methods)
  | _ => 1
  end.

Definition specSymbols (s : Spec) : nat :=
  match s with
  | ImportSpecNode _ => 0
  | ValueSpecNode vs => length (VSNames vs)
  | TypeSpecNode ts => typeSymbols (TSType ts)
  end.

Definition declSymbols (d : Decl) : nat :=
  match d with
  | BadDeclNode _ => 0
  | FuncDeclNode _ => 1
  | GenDeclNode g => sum_list (map specSymbols (Specs g))
  end.

(** A method declaration whose receiver list is there and is empty. *)
Definition emptyReceiver (d : Decl) : bool :=
  match d with
  | FuncDeclNode f =>
      match Recv f with
      | Some recv => match List recv with [] => true | _ :: _ => false end
      | None => false
      end
  | _ => false
  end.

(** The example tree on disk: [src] is a directory that holds [point.go]
    and a subdirectory, [notes.txt] is a regular file, [ghost] is a
    directory whose tree cannot be examined under its base name. *)
Definition regularFile (name : string) : FileInfo := mkFileInfo name 420.
Definition directory (name : string) : FileInfo := mkFileInfo name (FileMode.ModeDir + 493).

Definition exampleDisk : FileSystem :=
  mkFileSystem
    (fun fn =>
       if String.eqb fn "point.go" then Some (regularFile "point.go")
       else if String.eqb fn "const.go" then Some (regularFile "const.go")
       else if String.eqb fn "notes.txt" then Some (regularFile "notes.txt")
       else if String.eqb fn "src" then Some (directory "src")
       else if String.eqb fn "vendor/src" then Some (directory "src")
       else if String.eqb fn "away/ghost" then Some (directory "ghost")
       else None)
    (fun root =>
       if String.eqb root "src" then
         [("src", Some (directory "src"));
          ("src/point.go", Some (regularFile "point.go"));
          ("src/sub", Some (directory "sub"));
          ("src/sub/README", Some (regularFile "README"));
          ("src/sub/const.go", Some (regularFile "const.go"))]
       else [(root, None)]).


(** An argument the first loop takes for a Go file: it can be examined,
    is a regular file and has the extension [.go]. *)
Definition goFileArg (env : FileSystem) (fn : string) : bool :=
  match os_Stat env fn with
  | Some fi => FileMode.IsRegular (fiMode fi) && String.eqb (Ext fn) ".go"
  | None => false
  end.

(** The entries of a walk that [walker] takes for Go files. *)
Definition goFileEntry (entry : string * option FileInfo) : bool :=
  match entry.2 with
  | Some fi => (Z.land (fiMode fi) FileMode.ModeType =? 0) && HasSuffix (fiName fi) ".go"
  | None => false
  end.

(** The root that is walked for an argument: the base name of a
    directory, when subdirectories are asked for. *)
Definition walkRoot (env : FileSystem) (recurseSubdirs : bool) (fn : string)
    : option string :=
  match os_Stat env fn with
  | Some fi =>
      if recurseSubdirs && FileMode.IsDir (fiMode fi) then Some (fiName fi) else None
  | None => None
  end.


(** What one argument adds to [files] when nothing goes wrong: itself
    when it is a Go file, then the Go files of the walk of its root. *)
Definition argFiles (env : FileSystem) (recurseSubdirs : bool) (fn : string) : list string :=
  (if goFileArg env fn then [fn] else [])
  ++ match walkRoot env recurseSubdirs fn with
     | Some root => (filter (fun entry => goFileEntry entry = true) (filepath_Walk env root)).*1
     | None => []
     end.


(** [recv.go] declares a method with an empty receiver list, which the
    parser lets through. *)
Definition receiverlessFile : File :=
  mkFile (ident "geom" 1)
    [FuncDeclNode (mkFuncDecl (Some (mkFieldList 2 [] 2)) (ident "Lost" 2) 2)].

Definition receiverlessParser (filename : string) : ParseResult :=
  if String.eqb filename "recv.go" then Parsed receiverlessFile
  else exampleParser filename.




(** The example tree with [recv.go] next to it. *)
Definition receiverlessDisk : FileSystem :=
  mkFileSystem
    (fun fn =>
       if String.eqb fn "recv.go" then Some (regularFile "recv.go")
       else os_Stat exampleDisk fn)
    (filepath_Walk exampleDisk).


Section Program.

Variable fset_Position : Pos -> Position.
Variable os_Open : string -> option (list byte).
Variable parser_ParseFile : string -> ParseResult.

(** [contentOfLine]: the loop is given [scanBound line] iterations,
    within which it has returned for every file and every [int] line
    ([scanLines_scanBound] below), so the default is never used. *)
Definition contentOfLine (line : Z) (file : string) : list byte :=
  match os_Open file with
  | None => []
  | Some r => default [] (scanLines (scanBound line) r 1 line)
  end.

Definition emitTag (tag : string) (pos : Pos) (kind : ascii) (extra : string)
    (tags : list string) : list string :=
  let p := fset_Position pos in
  let searchString := contentOfLine (Line p) (Filename p) in
  tags ++ [Sprintf tagFormat
             [ArgString tag; ArgString (Filename p); ArgBytes searchString;
              ArgRune kind; ArgString extra]].

Definition typeSpec (spec : TypeSpec) (tags : list string) : list string :=
  match TSType spec with
  | StructType struct fields =>
      let tags := emitTag (Name (TSName spec)) struct STRUCT EmptyString tags in
      foldl (fun tags f =>
               foldl (fun tags m =>
                        emitTag (Name m) (NamePos m) MEMBER
                          (Sprintf "struct:%s" [ArgString (Name (TSName spec))]) tags)
                     tags (Names f))
            tags (List fields)
  | InterfaceType interface methods =>
      let tags := emitTag (Name (TSName spec)) interface CLASS EmptyString tags in
      foldl (fun tags f =>
               foldl (fun tags m =>
                        emitTag (Name m) (NamePos m) FUNC
                          (Sprintf "class:%s" [ArgString (Name (TSName spec))]) tags)
                     tags (Names f))
            tags (List methods)
  | st => emitTag (Name (TSName spec)) (Expr_Pos st) TYPE EmptyString tags
  end.

Definition genDecl (decl : GenDecl) (tags : list string) : list string :=
  foldl (fun tags spec =>
           match spec with
           | TypeSpecNode nt => typeSpec nt tags
           | ValueSpecNode nt =>
               foldl (fun tags ident =>
                        let kind :=
                          match Tok decl with
                          | CONST_tok => CONST
                          | VAR_tok => VAR
                          | _ => zeroRune
                          end in
                        emitTag (Name ident) (NamePos ident) kind EmptyString tags)
                     tags (VSNames nt)
           | _ => tags
           end)
        tags (Specs decl).

(** [decl.Recv.List[0]] panics when the receiver list is empty. *)
Definition funcDecl (decl : FuncDecl) (tags : list string) : option (list string) :=
  recvType ←
    match Recv decl with
    | Some recv => f ← List recv !! 0%nat; Some ("class:" +:+ typeName (FType f))
    | None => Some EmptyString
    end;
  Some (emitTag (Name (FDName decl)) (FDPos decl) FUNC recvType tags).

Definition handleDecls (decls : list Decl) (tags : list string) : option (list string) :=
  forEach (fun decl tags =>
             match decl with
             | FuncDeclNode decl => funcDecl decl tags
             | GenDeclNode decl => Some (genDecl decl tags)
             | _ => Some tags
             end)
          decls tags.

(** The body of the second loop of [parseFiles]: one file name. *)
Definition parseFile (acc : gmap string Package * option error) (filename : string)
    : gmap string Package * option error :=
  let '(pkgs, first) := acc in
  match parser_ParseFile filename with
  | Parsed src =>
      let name := Name (PkgName src) in
      let pkg :=
        match pkgs !! name with
        | Some pkg => pkg
        | None => mkPackage name ∅
        end in
      (<[name := mkPackage (PName pkg) (<[filename := src]> (Files pkg))]> pkgs, first)
  | ParseError err =>
      (pkgs, match first with None => Some err | Some _ => first end)
  end.

(** The second loop of [parseFiles], over the process-wide slice
    [files] that the first loop has filled from the command line. *)
Definition parseFiles (files : list string) : gmap string Package * option error :=
  foldl parseFile (∅, None) files.

(** The tags [main] has collected when the two nested [range] loops
    are over, [None] if a declaration handler has panicked. *)
Definition collectTags (o : RangeOrder) (pkgs : gmap string Package)
    (tags : list string) : option (list string) :=
  forEach (fun pkg =>
             forEach (fun file tags => handleDecls (Decls file.2) tags)
                     (rangeFiles o (Files pkg.2)))
          (rangePkgs o pkgs) tags.

(** The value of [tags] after [sort.Strings]. *)
Definition sortedTags (o : RangeOrder) (files : list string) : option (list string) :=
  let '(pkgs, _) := parseFiles files in
  tags ← collectTags o pkgs [];
  Some (sort_Strings tags).

Definition printTags (tags : list string) (stdout : string) : string :=
  foldl (fun stdout t => Printf ("%s" +:+ str NL) [ArgString t] stdout) stdout tags.

(** What [main] has written to the standard output when it returns;
    [None] when it panics, which it can only do before it prints. *)
Definition main (o : RangeOrder) (files : list string) : option string :=
  tags ← sortedTags o files;
  Some (printTags tags (printTagsHeader EmptyString)).


(** The record of a symbol declared at [pos]. *)
Definition tagAt (name : string) (pos : Pos) (kind : ascii) (scope : string) : TagRecord :=
  let p := fset_Position pos in
  mkTag name (Filename p) (contentOfLine (Line p) (Filename p)) kind scope.


(** The files in the order a run visits them. *)
Definition visitedFiles (o : RangeOrder) (pkgs : gmap string Package)
    : list (string * File) :=
  rangePkgs o pkgs ≫= fun pkg => rangeFiles o (Files pkg.2).

Definition parsedOk (filename : string) : bool :=
  match parser_ParseFile filename with
  | Parsed _ => true
  | ParseError _ => false
  end.

Definition parseErrorOf (filename : string) : option error :=
  match parser_ParseFile filename with
  | Parsed _ => None
  | ParseError err => Some err
  end.

(** The failure of the first file, in the order of the list, that does
    not parse. *)
Definition firstError (files : list string) : option error :=
  head (omap parseErrorOf files).

(** A loop body that only appends to [tags], or panics, whatever [tags]
    holds. *)
Definition appendOnly {A : Type} (f : A -> list string -> option (list string)) : Prop :=
  forall x tags, f x tags = (fun out => tags ++ out) <$> f x [].


(** What the packages hold after the file names [done] have been
    handled: exactly the files among [done] that parse, each under the
    name of its package. *)
Definition parsedIn (pkgs : gmap string Package) (done : list string) : Prop :=
  (forall name pkg fn src,
      pkgs !! name = Some pkg -> Files pkg !! fn = Some src ->
      parser_ParseFile fn = Parsed src /\ fn ∈ done /\ Name (PkgName src) = name)
  /\ (forall fn src,
         fn ∈ done -> parser_ParseFile fn = Parsed src ->
         exists pkg, pkgs !! Name (PkgName src) = Some pkg /\ Files pkg !! fn = Some src).


(** The whole of [main]: the arguments are expanded into [files], then
    parsed, and the tags are collected, sorted and printed. *)
Definition taggo (env : FileSystem) (recurseSubdirs : bool) (o : RangeOrder)
    (args : list string) : option string :=
  files ← expandSubdirs env recurseSubdirs args [];
  main o files.


(** * Properties *)

(** ** Formatting *)

Lemma append_nil_r (s : string) : s +:+ EmptyString = s.
Proof.
  induction s as [|c s IH]; [reflexivity|].
  change (String c (s +:+ EmptyString) = String c s). now rewrite IH.
Qed.

Lemma append_assoc (s1 s2 s3 : string) : (s1 +:+ s2) +:+ s3 = s1 +:+ s2 +:+ s3.
Proof.
  induction s1 as [|c s1 IH]; [reflexivity|].
  change (String c ((s1 +:+ s2) +:+ s3) = String c (s1 +:+ s2 +:+ s3)). now rewrite IH.
Qed.

Lemma Sprintf_tagFormat (tag file : string) (search : list byte) (kind : ascii)
    (extra : string) :
  Sprintf tagFormat
    [ArgString tag; ArgString file; ArgBytes search; ArgRune kind; ArgString extra]
  = tag +:+ str TAB +:+ file +:+ str TAB +:+ "/^" +:+ string_of_list_byte search
    +:+ "$/;" +:+ str DQUOTE +:+ str TAB +:+ str kind +:+ str TAB +:+ extra.
Proof.
  transitivity
    (tag +:+ str TAB +:+ file +:+ str TAB +:+ "/^" +:+ string_of_list_byte search
     +:+ "$/;" +:+ str DQUOTE +:+ str TAB +:+ str kind +:+ str TAB +:+ extra
     +:+ EmptyString); [reflexivity|].
  now rewrite append_nil_r.
Qed.

Lemma Sprintf_struct_scope (name : string) :
  Sprintf "struct:%s" [ArgString name] = "struct:" +:+ name.
Proof.
  transitivity ("struct:" +:+ name +:+ EmptyString); [reflexivity|].
  now rewrite append_nil_r.
Qed.

Lemma Sprintf_class_scope (name : string) :
  Sprintf "class:%s" [ArgString name] = "class:" +:+ name.
Proof.
  transitivity ("class:" +:+ name +:+ EmptyString); [reflexivity|].
  now rewrite append_nil_r.
Qed.

Lemma Sprintf_line (t : string) :
  Sprintf ("%s" +:+ str NL) [ArgString t] = t +:+ str NL.
Proof. reflexivity. Qed.

Lemma emitTag_tagLine (tag : string) (pos : Pos) (kind : ascii) (extra : string)
    (tags : list string) :
  emitTag tag pos kind extra tags = tags ++ [tagLine (tagAt tag pos kind extra)].
Proof.
  unfold emitTag. rewrite Sprintf_tagFormat.
  unfold tagLine, tagFields, tagAt, searchPattern, String.concat.
  cbn [tagName tagFile tagContent tagKind tagScope].
  now rewrite !append_assoc.
Qed.

(** C6.  [emitTag] appends one line made of the five fields name,
    file, [/^] + line content + [$/;] + double quote, kind character and scope, in
    that order and separated by tabs; the line content is copied as it
    is; with an empty scope the line ends with the tab that precedes
    the fifth field, so the field count is five all the same. *)
Theorem emitTag_five_fields (tag : string) (pos : Pos) (kind : ascii) (extra : string)
    (tags : list string) :
  let p := fset_Position pos in
  let content := contentOfLine (Line p) (Filename p) in
  let pattern := "/^" +:+ string_of_list_byte content +:+ "$/;" +:+ str DQUOTE in
  emitTag tag pos kind extra tags
  = tags ++ [String.concat (str TAB) [tag; Filename p; pattern; str kind; extra]]
  /\ emitTag tag pos kind extra tags
     = tags ++ [tag +:+ str TAB +:+ Filename p +:+ str TAB +:+ pattern +:+ str TAB
                +:+ str kind +:+ str TAB +:+ extra]
  /\ emitTag tag pos kind EmptyString tags
     = tags ++ [String.concat (str TAB) [tag; Filename p; pattern; str kind] +:+ str TAB]
  /\ length (tagFields (tagAt tag pos kind extra)) = 5%nat
  /\ length (tagFields (tagAt tag pos kind EmptyString)) = 5%nat.
Proof.
  intros p content pattern. rewrite !emitTag_tagLine.
  split; [reflexivity|]. split; [reflexivity|]. split; [|split; reflexivity].
  do 2 f_equal.
  unfold tagLine, tagFields, tagAt, searchPattern, String.concat.
  cbn [tagName tagFile tagContent tagKind tagScope].
  fold p. fold content. fold pattern.
  now rewrite !append_assoc, append_nil_r.
Qed.

(** ** The declaration classifier *)







Lemma foldl_emitTag {A : Type} (name : A -> string) (pos : A -> Pos) (kind : ascii)
    (scope : string) (l : list A) (tags : list string) :
  foldl (fun tags m => emitTag (name m) (pos m) kind scope tags) tags l
  = tags ++ map (fun m => tagLine (tagAt (name m) (pos m) kind scope)) l.
Proof.
  revert tags. induction l as [|m l IH]; intros tags; cbn.
  - now rewrite app_nil_r.
  - rewrite IH, emitTag_tagLine, <- app_assoc. reflexivity.
Qed.

Lemma foldl_fields_emitTag (kind : ascii) (scope : string) (fl : list Field)
    (tags : list string) :
  foldl (fun tags f =>
           foldl (fun tags m => emitTag (Name m) (NamePos m) kind scope tags)
                 tags (Names f))
        tags fl
  = tags ++ map (fun m => tagLine (tagAt (Name m) (NamePos m) kind scope))
                (concat (map Names fl)).
Proof.
  revert tags. induction fl as [|f fl IH]; intros tags; cbn.
  - now rewrite app_nil_r.
  - rewrite IH, foldl_emitTag, map_app, app_assoc. reflexivity.
Qed.

Lemma countKind_cons (kind : ascii) (r : TagRecord) (recs : list TagRecord) :
  countKind kind (r :: recs)
  = ((if decide (tagKind r = kind) then 1 else 0) + countKind kind recs)%nat.
Proof.
  unfold countKind. rewrite filter_cons. destruct (decide (tagKind r = kind)); reflexivity.
Qed.

Lemma countKind_map_tagAt {A : Type} (name : A -> string) (pos : A -> Pos)
    (kind kind' : ascii) (scope : string) (l : list A) :
  countKind kind (map (fun m => tagAt (name m) (pos m) kind' scope) l)
  = if decide (kind' = kind) then length l else 0%nat.
Proof.
  induction l as [|m l IH]; cbn [map].
  - destruct (decide (kind' = kind)); reflexivity.
  - rewrite countKind_cons, IH. cbn [tagAt tagKind].
    destruct (decide (kind' = kind)); reflexivity.
Qed.

Lemma length_fieldNames (fl : FieldList) : length (fieldNames fl) = namedCount fl.
Proof.
  unfold fieldNames, namedCount. induction (List fl) as [|f l IH]; [reflexivity|].
  cbn. rewrite length_app, IH. reflexivity.
Qed.


(** C2.  A type specification yields: for a struct, one tag of kind [s]
    for the type, at the position of the struct, then one tag of kind
    [m] and scope [struct:] + type name for each identifier of each
    field group; for an interface, one tag of kind [c], then one tag of
    kind [f] and scope [class:] + type name for each identifier of each
    method group; for any other type, one tag of kind [t] with no scope.
    A group without names adds nothing to [namedCount], and no tag. *)
Theorem typeSpec_tags (spec : TypeSpec) (tags : list string) :
  let name := Name (TSName spec) in
  exists recs : list TagRecord,
    typeSpec spec tags = tags ++ map tagLine recs
    /\ match TSType spec with
       | StructType struct fields =>
           recs = tagAt name struct STRUCT EmptyString
                  :: map (fun m => tagAt (Name m) (NamePos m) MEMBER ("struct:" +:+ name))
                         (fieldNames fields)
           /\ countKind STRUCT recs = 1%nat
           /\ countKind MEMBER recs = namedCount fields
           /\ length recs = S (namedCount fields)
       | InterfaceType interface methods =>
           recs = tagAt name interface CLASS EmptyString
                  :: map (fun m => tagAt (Name m) (NamePos m) FUNC ("class:" +:+ name))
                         (fieldNames methods)
           /\ countKind CLASS recs = 1%nat
           /\ countKind FUNC recs = namedCount methods
           /\ length recs = S (namedCount methods)
       | st => recs = [tagAt name (Expr_Pos st) TYPE EmptyString]
       end.
Proof.
  intros name. unfold typeSpec. fold name.
  destruct (TSType spec) as
    [from|id|dots elt|lparen x|x sel|star x|lbrack len elt|struct fields|func params
    |interface methods|map key value|begin value];
    try (eexists [_]; split; [apply emitTag_tagLine|reflexivity]).
  - eexists. split; [|split; [reflexivity|]].
    + rewrite foldl_fields_emitTag, emitTag_tagLine, Sprintf_struct_scope, <- app_assoc.
      cbn [app map]. do 2 f_equal. unfold fieldNames. now rewrite map_map.
    + rewrite !countKind_cons, !countKind_map_tagAt. cbn [length].
      rewrite length_map, length_fieldNames. cbn [tagAt tagKind].
      split; [|split]; reflexivity.
  - eexists. split; [|split; [reflexivity|]].
    + rewrite foldl_fields_emitTag, emitTag_tagLine, Sprintf_class_scope, <- app_assoc.
      cbn [app map]. do 2 f_equal. unfold fieldNames. now rewrite map_map.
    + rewrite !countKind_cons, !countKind_map_tagAt. cbn [length].
      rewrite length_map, length_fieldNames. cbn [tagAt tagKind].
      split; [|split]; reflexivity.
Qed.


(** ** Go integers *)

Lemma wrap_in_range (z : Z) : GoInt.in_range z -> GoInt.wrap z = z.
Proof.
  unfold GoInt.in_range, GoInt.wrap, GoInt.min_int, GoInt.max_int, GoInt.modulus.
  intros H. rewrite Z.mod_small; lia.
Qed.

Lemma incr_below_max (z : Z) :
  GoInt.min_int <= z < GoInt.max_int -> GoInt.incr z = z + 1.
Proof.
  intros H. apply wrap_in_range. unfold GoInt.in_range, GoInt.min_int, GoInt.max_int in *. lia.
Qed.

Lemma incr_max : GoInt.incr GoInt.max_int = GoInt.min_int.
Proof. reflexivity. Qed.

Lemma incr_in_range (z : Z) : GoInt.in_range (GoInt.incr z).
Proof.
  unfold GoInt.in_range, GoInt.incr, GoInt.wrap, GoInt.min_int, GoInt.max_int, GoInt.modulus.
  pose proof (Z.mod_pos_bound (z + 1 - -9223372036854775808) 18446744073709551616).
  lia.
Qed.

(** The distance from the counter to the requested line, counted in
    increments: it drops by one with each [ln++] until it is zero. *)
Lemma distance_incr (ln line : Z) :
  GoInt.in_range ln -> GoInt.in_range line -> ln <> line ->
  (line - GoInt.incr ln) mod GoInt.modulus = (line - ln) mod GoInt.modulus - 1.
Proof.
  unfold GoInt.in_range, GoInt.incr, GoInt.wrap, GoInt.min_int, GoInt.max_int, GoInt.modulus.
  clear fset_Position os_Open parser_ParseFile. intros Hln Hline Hne.
  Z.div_mod_to_equations. lia.
Qed.

(** ** The line resolver *)

Lemma scanLines_unfold (fuel : nat) (r : list byte) (ln line : Z) :
  scanLines (S fuel) r ln line =
  let '(cl, eof, r') := ReadBytes newline r in
  if eof && (ln <? line) then Some []
  else if ln =? line then
    Some (if (0 <? length cl)%nat then take (length cl - 1) cl else cl)
  else scanLines fuel r' (GoInt.incr ln) line.
Proof. reflexivity. Qed.

(** Whatever the file holds and whatever line is asked for, the loop
    returns: within the distance from the counter to the line, plus one,
    iterations. *)
Lemma scanLines_returns (fuel : nat) (r : list byte) (ln line : Z) :
  GoInt.in_range ln -> GoInt.in_range line ->
  (line - ln) mod GoInt.modulus < Z.of_nat fuel ->
  exists cl, scanLines fuel r ln line = Some cl.
Proof.
  revert r ln. induction fuel as [|fuel IH]; intros r ln Hln Hline Hfuel.
  - pose proof (Z.mod_pos_bound (line - ln) GoInt.modulus eq_refl). lia.
  - rewrite scanLines_unfold. destruct (ReadBytes newline r) as [[cl eof] r'].
    destruct (eof && (ln <? line)); [eauto|].
    destruct (ln =? line) eqn:Eln; [eauto|].
    apply Z.eqb_neq in Eln. apply IH; [apply incr_in_range|assumption|].
    rewrite distance_incr by assumption. lia.
Qed.

Lemma scanLines_fuel_mono (fuel fuel' : nat) (r : list byte) (ln line : Z)
    (cl : list byte) :
  scanLines fuel r ln line = Some cl -> (fuel <= fuel')%nat ->
  scanLines fuel' r ln line = Some cl.
Proof.
  revert fuel' r ln. induction fuel as [|fuel IH]; intros fuel' r ln Hscan Hle.
  - discriminate.
  - destruct fuel' as [|fuel']; [lia|].
    rewrite scanLines_unfold in *. destruct (ReadBytes newline r) as [[cl' eof] r'].
    destruct (eof && (ln <? line)); [assumption|].
    destruct (ln =? line); [assumption|].
    apply IH; [assumption|lia].
Qed.

Lemma scanBound_positive (line : Z) :
  1 <= line <= GoInt.max_int -> scanBound line = Z.to_nat line.
Proof.
  unfold scanBound, GoInt.max_int, GoInt.modulus. intros H.
  rewrite Z.mod_small by lia. lia.
Qed.

Lemma scanLines_scanBound (r : list byte) (line : Z) :
  GoInt.in_range line -> exists cl, scanLines (scanBound line) r 1 line = Some cl.
Proof.
  intros H. apply scanLines_returns; [|assumption|].
  - unfold GoInt.in_range, GoInt.min_int, GoInt.max_int. lia.
  - unfold scanBound.
    pose proof (Z.mod_pos_bound (line - 1) GoInt.modulus eq_refl). lia.
Qed.

(** With a line number that is not positive, no iteration returns while
    the counter is positive. *)
Lemma scanLines_nonpositive_line (fuel : nat) (r : list byte) (ln line : Z) :
  line <= 0 -> 1 <= ln -> ln + Z.of_nat fuel <= GoInt.max_int + 1 ->
  scanLines fuel r ln line = None.
Proof.
  revert r ln. induction fuel as [|fuel IH]; intros r ln Hline Hln Hfuel; [reflexivity|].
  rewrite scanLines_unfold. destruct (ReadBytes newline r) as [[cl eof] r'].
  replace (ln <? line) with false by (symmetry; apply Z.ltb_ge; lia).
  rewrite andb_false_r.
  replace (ln =? line) with false by (symmetry; apply Z.eqb_neq; lia).
  destruct fuel as [|fuel]; [reflexivity|].
  rewrite incr_below_max by (unfold GoInt.min_int; lia).
  apply IH; lia.
Qed.


Lemma ReadBytes_eof (r cl r' : list byte) :
  ReadBytes newline r = (cl, true, r') ->
  cl = r /\ r' = [] /\ lineCount r = match r with [] => 0%nat | _ :: _ => 1%nat end.
Proof.
  revert cl r'. induction r as [|b r IH]; intros cl r' H; cbn in H.
  - now inversion H.
  - cbn [lineCount]. destruct (Byte.eqb b newline); [discriminate|].
    destruct (ReadBytes newline r) as [[cl0 eof0] r0]. inversion H; subst.
    destruct (IH cl0 r' eq_refl) as (-> & -> & Hcount).
    repeat split. destruct r; [reflexivity|exact Hcount].
Qed.

Lemma ReadBytes_line (r cl r' : list byte) :
  ReadBytes newline r = (cl, false, r') ->
  lineCount r = S (lineCount r') /\ r = cl ++ r' /\ last cl = Some newline.
Proof.
  revert cl r'. induction r as [|b r IH]; intros cl r' H; cbn in H; [discriminate|].
  cbn [lineCount]. destruct (Byte.eqb b newline) eqn:Eb.
  - inversion H; subst. apply Byte.byte_dec_bl in Eb. subst. repeat split.
  - destruct (ReadBytes newline r) as [[cl0 eof0] r0] eqn:Eread. inversion H; subst.
    destruct (IH cl0 r' eq_refl) as (Hcount & Hr & Hlast).
    destruct r as [|b' r]; [discriminate|].
    split; [exact Hcount|]. split; [cbn; now rewrite Hr|].
    destruct cl0 as [|c cl0]; [discriminate|]. exact Hlast.
Qed.

(** Past the last line of the file the loop returns the empty slice. *)
Lemma scanLines_beyond_last_line (fuel : nat) (r : list byte) (ln line : Z)
    (cl : list byte) :
  scanLines fuel r ln line = Some cl ->
  GoInt.min_int <= ln <= line -> line <= GoInt.max_int ->
  Z.of_nat (lineCount r) + ln - 1 < line ->
  cl = [].
Proof.
  revert r ln. induction fuel as [|fuel IH]; intros r ln Hscan Hln Hline Hcount;
    [discriminate|].
  rewrite scanLines_unfold in Hscan.
  destruct (ReadBytes newline r) as [[cl' eof] r'] eqn:Eread.
  destruct eof.
  - apply ReadBytes_eof in Eread as (-> & -> & Hr).
    destruct (ln <? line) eqn:Elt; cbn [andb] in Hscan; [congruence|].
    apply Z.ltb_ge in Elt. assert (ln = line) as -> by lia.
    rewrite Z.eqb_refl in Hscan. destruct r; [cbn in Hscan; congruence|].
    rewrite Hr in Hcount. lia.
  - apply ReadBytes_line in Eread as (Hr & _ & _). cbn [andb] in Hscan.
    destruct (ln =? line) eqn:Eln.
    + apply Z.eqb_eq in Eln. lia.
    + apply Z.eqb_neq in Eln.
      rewrite incr_below_max in Hscan by lia.
      apply (IH r' (ln + 1)); [assumption|lia|assumption|lia].
Qed.

Lemma contentOfLine_unopened (line : Z) (file : string) :
  os_Open file = None -> contentOfLine line file = [].
Proof. unfold contentOfLine. now intros ->. Qed.

Lemma contentOfLine_scan (line : Z) (file : string) (r : list byte) :
  os_Open file = Some r -> GoInt.in_range line ->
  scanLines (scanBound line) r 1 line = Some (contentOfLine line file).
Proof.
  intros Hopen Hline. unfold contentOfLine. rewrite Hopen.
  destruct (scanLines_scanBound r line Hline) as [cl ->]. reflexivity.
Qed.

Lemma contentOfLine_short_file (line : Z) (file : string) (r : list byte) :
  os_Open file = Some r -> GoInt.in_range line -> Z.of_nat (lineCount r) < line ->
  contentOfLine line file = [].
Proof.
  intros Hopen Hline Hcount.
  apply (scanLines_beyond_last_line (scanBound line) r 1 line).
  - now apply contentOfLine_scan.
  - unfold GoInt.min_int. lia.
  - apply Hline.
  - lia.
Qed.

(** *** The line that is found *)

Lemma ReadBytes_terminated (l rest : list byte) :
  newline ∉ l -> ReadBytes newline (l ++ newline :: rest) = (l ++ [newline], false, rest).
Proof.
  induction l as [|b l IH]; intros Hl; cbn [app ReadBytes].
  - reflexivity.
  - destruct (Byte.eqb b newline) eqn:Eb.
    + apply Byte.byte_dec_bl in Eb. subst b. exfalso. apply Hl. now left.
    + rewrite IH; [reflexivity|]. intros Hin. apply Hl. now right.
Qed.

Lemma ReadBytes_unterminated (l : list byte) :
  newline ∉ l -> ReadBytes newline l = (l, true, []).
Proof.
  induction l as [|b l IH]; intros Hl; cbn [ReadBytes].
  - reflexivity.
  - destruct (Byte.eqb b newline) eqn:Eb.
    + apply Byte.byte_dec_bl in Eb. subst b. exfalso. apply Hl. now left.
    + rewrite IH; [reflexivity|]. intros Hin. apply Hl. now right.
Qed.

Lemma cut_last_byte (l : list byte) (b : byte) :
  (if (0 <? length (l ++ [b]))%nat then take (length (l ++ [b]) - 1) (l ++ [b])
   else l ++ [b]) = l.
Proof.
  rewrite length_app. cbn [length].
  replace (length l + 1 - 1)%nat with (length l) by lia.
  rewrite take_app_length.
  destruct (0 <? length l + 1)%nat eqn:E; [reflexivity|].
  apply Nat.ltb_ge in E. lia.
Qed.

(** The lines before the one asked for are read and passed over. *)
Lemma scanLines_skip (ls : list (list byte)) (r : list byte) (fuel : nat) (ln line : Z) :
  Forall (fun l => newline ∉ l) ls ->
  GoInt.min_int <= ln -> ln + Z.of_nat (length ls) <= line -> line <= GoInt.max_int ->
  scanLines (length ls + fuel) (terminated ls ++ r) ln line
  = scanLines fuel r (ln + Z.of_nat (length ls)) line.
Proof.
  intros Hls. revert ln. induction Hls as [|l ls Hl Hls IH]; intros ln Hmin Hln Hmax.
  - cbn. now rewrite Z.add_0_r.
  - cbn [length Nat.add]. rewrite scanLines_unfold.
    unfold terminated. cbn [map concat]. fold (terminated ls).
    rewrite <- !app_assoc. cbn [app]. rewrite (ReadBytes_terminated l _ Hl).
    cbn [andb]. cbn [length] in Hln.
    replace (ln =? line) with false by (symmetry; apply Z.eqb_neq; lia).
    rewrite incr_below_max by lia.
    rewrite IH by lia. f_equal. lia.
Qed.

(** X5.  A line that ends with a newline is returned without that
    newline and with nothing else removed: the lines before it, each
    ended by a newline, are passed over, and what follows it is not
    read. *)
Lemma contentOfLine_terminated_line (file : string) (ls : list (list byte))
    (l rest : list byte) :
  os_Open file = Some (terminated ls ++ l ++ newline :: rest) ->
  Forall (fun l => newline ∉ l) ls -> newline ∉ l ->
  Z.of_nat (length ls) < GoInt.max_int ->
  contentOfLine (Z.of_nat (length ls) + 1) file = l.
Proof.
  intros Hopen Hls Hl Hmax.
  assert (GoInt.in_range (Z.of_nat (length ls) + 1)) as Hrange
    by (unfold GoInt.in_range, GoInt.min_int; lia).
  pose proof (contentOfLine_scan _ _ _ Hopen Hrange) as Hscan.
  rewrite scanBound_positive in Hscan by lia.
  replace (Z.to_nat (Z.of_nat (length ls) + 1)) with (length ls + 1)%nat in Hscan by lia.
  rewrite scanLines_skip in Hscan by (try assumption; unfold GoInt.min_int; lia).
  rewrite scanLines_unfold, (ReadBytes_terminated l rest Hl) in Hscan. cbn [andb] in Hscan.
  replace (1 + Z.of_nat (length ls) =? Z.of_nat (length ls) + 1) with true in Hscan
    by (symmetry; apply Z.eqb_eq; lia).
  rewrite cut_last_byte in Hscan. congruence.
Qed.

(** X6.  A last line with no newline after it is returned without its
    last byte, whatever that byte is. *)
Lemma contentOfLine_unterminated_line (file : string) (ls : list (list byte))
    (l : list byte) (b : byte) :
  os_Open file = Some (terminated ls ++ l ++ [b]) ->
  Forall (fun l => newline ∉ l) ls -> newline ∉ l ++ [b] ->
  Z.of_nat (length ls) < GoInt.max_int ->
  contentOfLine (Z.of_nat (length ls) + 1) file = l.
Proof.
  intros Hopen Hls Hl Hmax.
  assert (GoInt.in_range (Z.of_nat (length ls) + 1)) as Hrange
    by (unfold GoInt.in_range, GoInt.min_int; lia).
  pose proof (contentOfLine_scan _ _ _ Hopen Hrange) as Hscan.
  rewrite scanBound_positive in Hscan by lia.
  replace (Z.to_nat (Z.of_nat (length ls) + 1)) with (length ls + 1)%nat in Hscan by lia.
  rewrite scanLines_skip in Hscan by (try assumption; unfold GoInt.min_int; lia).
  rewrite scanLines_unfold, (ReadBytes_unterminated _ Hl) in Hscan.
  replace (1 + Z.of_nat (length ls) <? Z.of_nat (length ls) + 1) with false in Hscan
    by (symmetry; apply Z.ltb_ge; lia).
  replace (1 + Z.of_nat (length ls) =? Z.of_nat (length ls) + 1) with true in Hscan
    by (symmetry; apply Z.eqb_eq; lia).
  cbn [andb] in Hscan. rewrite cut_last_byte in Hscan. congruence.
Qed.

Lemma scanLines_short_file (line : Z) (r : list byte) :
  GoInt.in_range line -> Z.of_nat (lineCount r) < line ->
  scanLines (Z.to_nat line) r 1 line = Some [].
Proof.
  intros Hline Hcount.
  assert (1 <= line <= GoInt.max_int) as Hpos by (split; [lia|apply Hline]).
  rewrite <- (scanBound_positive line Hpos).
  destruct (scanLines_scanBound r line Hline) as [cl Hscan].
  rewrite Hscan. f_equal.
  apply (scanLines_beyond_last_line (scanBound line) r 1 line cl Hscan).
  - unfold GoInt.min_int. lia.
  - apply Hline.
  - lia.
Qed.

(** C5.  When the file cannot be opened, or has fewer lines than the
    line asked for, the resolver returns the empty slice: at once when
    the open fails, and otherwise from its loop, which itself returns
    the empty slice within as many iterations as the line number.
    [emitTag] still appends a tag, whose search pattern is [/^$/]. *)
Theorem unresolved_line_empty_pattern (line : Z) (file : string) :
  GoInt.in_range line ->
  (os_Open file = None
   \/ exists r, os_Open file = Some r /\ Z.of_nat (lineCount r) < line) ->
  contentOfLine line file = []
  /\ (forall tag pos kind extra tags,
        fset_Position pos = mkPosition file line ->
        emitTag tag pos kind extra tags
        = tags ++ [tag +:+ str TAB +:+ file +:+ str TAB +:+ "/^$/;" +:+ str DQUOTE
                   +:+ str TAB +:+ str kind +:+ str TAB +:+ extra])
  /\ (forall r,
        os_Open file = Some r ->
        1 <= line
        /\ scanLines (Z.to_nat line) r 1 line = Some []
        /\ scanLines (scanBound line) r 1 line = Some []).
Proof.
  intros Hline Hfail.
  assert (contentOfLine line file = []) as Hempty.
  { destruct Hfail as [Hopen|(r & Hopen & Hcount)].
    - now apply contentOfLine_unopened.
    - now apply (contentOfLine_short_file line file r). }
  split; [exact Hempty|]. split.
  - intros tag pos kind extra tags Hpos.
    rewrite emitTag_tagLine. unfold tagAt. rewrite Hpos. cbn [Line Filename].
    rewrite Hempty. reflexivity.
  - intros r Hopen. destruct Hfail as [Hnone|(r' & Hopen' & Hcount)]; [congruence|].
    assert (r' = r) as -> by congruence.
    assert (1 <= line <= GoInt.max_int) as Hpos by (split; [lia|apply Hline]).
    split; [lia|]. split.
    + now apply scanLines_short_file.
    + rewrite (scanBound_positive line Hpos). now apply scanLines_short_file.
Qed.


(** C10, as the code has it.  For a line number [n >= 1] the loop
    returns within [n] iterations, whatever the file holds.  For [n <= 0]
    no iteration returns while the counter is positive, that is during
    the first 2^63 - 1 iterations; the counter then wraps around and the
    loop returns within 2^64 + n iterations.  A call from [emitTag] at a
    valid position passes [n >= 1], returns within [n] iterations and
    appends its tag. *)
Theorem scanLines_iterations (r : list byte) (n : Z) :
  GoInt.in_range n ->
  (1 <= n -> exists cl, scanLines (Z.to_nat n) r 1 n = Some cl)
  /\ (n <= 0 ->
      (forall fuel, Z.of_nat fuel <= GoInt.max_int -> scanLines fuel r 1 n = None)
      /\ (exists cl, scanLines (scanBound n) r 1 n = Some cl)
      /\ Z.of_nat (scanBound n) = GoInt.modulus + n)
  /\ (forall tag pos kind extra tags,
        IsValid (fset_Position pos) = true ->
        Line (fset_Position pos) = n ->
        os_Open (Filename (fset_Position pos)) = Some r ->
        1 <= n
        /\ exists cl,
            scanLines (Z.to_nat n) r 1 n = Some cl
            /\ emitTag tag pos kind extra tags
               = tags ++ [tagLine (mkTag tag (Filename (fset_Position pos)) cl kind extra)]).
Proof.
  intros Hn. split; [|split].
  - intros Hpos. rewrite <- scanBound_positive by (split; [assumption|apply Hn]).
    now apply scanLines_scanBound.
  - intros Hneg. split; [|split; [now apply scanLines_scanBound|]].
    + intros fuel Hfuel. apply scanLines_nonpositive_line; lia.
    + unfold scanBound, GoInt.in_range, GoInt.min_int, GoInt.modulus in *.
      replace ((n - 1) mod 18446744073709551616) with (n - 1 + 18446744073709551616).
      * lia.
      * apply Z.mod_unique_pos with (q := -1); lia.
  - intros tag pos kind extra tags Hvalid Hline Hopen.
    unfold IsValid in Hvalid. rewrite Hline in Hvalid. apply Z.ltb_lt in Hvalid.
    split; [lia|]. exists (contentOfLine n (Filename (fset_Position pos))). split.
    + rewrite <- scanBound_positive by (split; [lia|apply Hn]).
      now apply contentOfLine_scan.
    + rewrite emitTag_tagLine. unfold tagAt. now rewrite Hline.
Qed.


(** ** Loops that append to [tags] *)

Lemma forEach_app {A : Type} (f : A -> list string -> option (list string))
    (l1 l2 : list A) (tags : list string) :
  forEach f (l1 ++ l2) tags = forEach f l1 tags ≫= forEach f l2.
Proof.
  revert tags. induction l1 as [|x l1 IH]; intros tags; [reflexivity|].
  cbn. destruct (f x tags) as [tags'|]; [apply IH|reflexivity].
Qed.

Lemma forEach_bind {A B : Type} (f : B -> list string -> option (list string))
    (g : A -> list B) (l : list A) (tags : list string) :
  forEach (fun x => forEach f (g x)) l tags = forEach f (l ≫= g) tags.
Proof.
  revert tags. induction l as [|x l IH]; intros tags; [reflexivity|].
  rewrite bind_cons, forEach_app. cbn.
  destruct (forEach f (g x) tags) as [tags'|]; [apply IH|reflexivity].
Qed.

Lemma forEach_frame {A : Type} (f : A -> list string -> option (list string))
    (l : list A) (tags : list string) :
  appendOnly f -> forEach f l tags = (fun out => tags ++ out) <$> forEach f l [].
Proof.
  intros Hf. revert tags. induction l as [|x l IH]; intros tags; cbn.
  - now rewrite app_nil_r.
  - rewrite (Hf x tags). destruct (f x []) as [out|]; [|reflexivity]. cbn.
    rewrite (IH (tags ++ out)), (IH out).
    destruct (forEach f l []) as [out'|]; [|reflexivity]. cbn.
    now rewrite app_assoc.
Qed.

Lemma forEach_Permutation {A : Type} (f : A -> list string -> option (list string))
    (l l' : list A) :
  appendOnly f -> l ≡ₚ l' ->
  option_Forall2 (≡ₚ) (forEach f l []) (forEach f l' []).
Proof.
  intros Hf Hperm. induction Hperm as [|x l l' Hperm IH|x y l|l l' l'' _ IH1 _ IH2].
  - now constructor.
  - cbn. destruct (f x []) as [out|]; cbn; [|constructor].
    rewrite (forEach_frame f l out Hf), (forEach_frame f l' out Hf).
    destruct IH as [t t' Ht|]; constructor. now rewrite Ht.
  - cbn. destruct (f x []) as [outx|] eqn:Ex, (f y []) as [outy|] eqn:Ey; cbn.
    + rewrite (Hf x outy), (Hf y outx), Ex, Ey. cbn.
      rewrite (forEach_frame f l (outy ++ outx) Hf), (forEach_frame f l (outx ++ outy) Hf).
      destruct (forEach f l []) as [out|]; constructor.
      apply Permutation_app_tail, Permutation_app_comm.
    + rewrite (Hf y outx), Ey. constructor.
    + rewrite (Hf x outy), Ex. constructor.
    + constructor.
  - destruct (forEach f l []), (forEach f l' []), (forEach f l'' []);
      inversion IH1; inversion IH2; subst; constructor.
    etrans; eassumption.
Qed.


Lemma foldl_frame {A : Type} (g : list string -> A -> list string) (l : list A)
    (tags : list string) :
  (forall x t, g t x = t ++ g [] x) -> foldl g tags l = tags ++ foldl g [] l.
Proof.
  intros Hg. revert tags. induction l as [|x l IH]; intros tags; cbn.
  - now rewrite app_nil_r.
  - rewrite (IH (g tags x)), (IH (g [] x)), (Hg x tags). now rewrite app_assoc.
Qed.

Lemma typeSpec_frame (spec : TypeSpec) (tags : list string) :
  typeSpec spec tags = tags ++ typeSpec spec [].
Proof.
  unfold typeSpec. destruct (TSType spec);
    rewrite ?foldl_fields_emitTag, !emitTag_tagLine; cbn [app];
    rewrite <- ?app_assoc; reflexivity.
Qed.

Lemma genDecl_frame (decl : GenDecl) (tags : list string) :
  genDecl decl tags = tags ++ genDecl decl [].
Proof.
  unfold genDecl. apply foldl_frame. intros spec t. destruct spec as [path|vs|ts].
  - now rewrite app_nil_r.
  - now rewrite !foldl_emitTag.
  - apply typeSpec_frame.
Qed.

Lemma funcDecl_frame (decl : FuncDecl) (tags : list string) :
  funcDecl decl tags = (fun out => tags ++ out) <$> funcDecl decl [].
Proof.
  unfold funcDecl. destruct (Recv decl) as [recv|]; cbn -[emitTag].
  - destruct (List recv !! 0%nat) as [f|]; cbn -[emitTag]; [|reflexivity].
    rewrite !emitTag_tagLine. reflexivity.
  - rewrite !emitTag_tagLine. reflexivity.
Qed.

Lemma handleDecls_frame (decls : list Decl) (tags : list string) :
  handleDecls decls tags = (fun out => tags ++ out) <$> handleDecls decls [].
Proof.
  unfold handleDecls. apply forEach_frame. intros decl t. destruct decl as [from|d|d].
  - cbn. now rewrite app_nil_r.
  - apply funcDecl_frame.
  - cbn. now rewrite genDecl_frame.
Qed.

Lemma handleFile_appendOnly :
  appendOnly (fun (file : string * File) tags => handleDecls (Decls file.2) tags).
Proof. intros file tags. apply handleDecls_frame. Qed.

Lemma collectTags_visitedFiles (o : RangeOrder) (pkgs : gmap string Package)
    (tags : list string) :
  collectTags o pkgs tags
  = forEach (fun file tags => handleDecls (Decls file.2) tags) (visitedFiles o pkgs) tags.
Proof. unfold collectTags, visitedFiles. apply forEach_bind. Qed.

Lemma bind_Permutation_ext {A B : Type} (g1 g2 : A -> list B) (l : list A) :
  (forall x, g1 x ≡ₚ g2 x) -> l ≫= g1 ≡ₚ l ≫= g2.
Proof.
  intros Hg. induction l as [|x l IH]; [reflexivity|].
  rewrite !bind_cons. now rewrite (Hg x), IH.
Qed.

Lemma visitedFiles_Permutation (o1 o2 : RangeOrder) (pkgs : gmap string Package) :
  validOrder o1 -> validOrder o2 -> visitedFiles o1 pkgs ≡ₚ visitedFiles o2 pkgs.
Proof.
  intros [Hp1 Hf1] [Hp2 Hf2]. unfold visitedFiles.
  rewrite (Hp1 pkgs), <- (Hp2 pkgs).
  apply bind_Permutation_ext. intros pkg. now rewrite Hf1, Hf2.
Qed.

(** ** Sorting *)

Lemma sort_Strings_sorted (a : list string) : StronglySorted String.le (sort_Strings a).
Proof. apply StronglySorted_merge_sort; apply _. Qed.

Lemma sort_Strings_Permutation (a : list string) : sort_Strings a ≡ₚ a.
Proof. apply merge_sort_Permutation. Qed.

Lemma sort_Strings_unique (a b : list string) : a ≡ₚ b -> sort_Strings a = sort_Strings b.
Proof.
  intros Hperm. apply (StronglySorted_unique String.le); try apply sort_Strings_sorted.
  now rewrite !sort_Strings_Permutation.
Qed.

(** [sort.Strings] returns the one sorted slice that holds the same
    strings: any algorithm that sorts returns it. *)
Lemma sort_Strings_characterised (a l : list string) :
  StronglySorted String.le l -> l ≡ₚ a -> l = sort_Strings a.
Proof.
  intros Hsorted Hperm. apply (StronglySorted_unique String.le).
  - exact Hsorted.
  - apply sort_Strings_sorted.
  - now rewrite sort_Strings_Permutation.
Qed.

Lemma StronglySorted_lookup_le (l : list string) (i j : nat) (a b : string) :
  StronglySorted String.le l -> (i < j)%nat -> l !! i = Some a -> l !! j = Some b ->
  String.leb a b = true.
Proof.
  intros Hsorted. revert i j. induction Hsorted as [|x l Hsorted IH Hall];
    intros i j Hij Hi Hj; [discriminate|].
  destruct j as [|j]; [lia|]. cbn in Hj. destruct i as [|i]; cbn in Hi.
  - inversion Hi; subst. rewrite Forall_forall in Hall.
    apply Is_true_true, Hall. eapply list_elem_of_lookup_2. eassumption.
  - apply (IH i j); [lia|assumption..].
Qed.

Lemma printTags_unlines (tags : list string) (stdout : string) :
  printTags tags stdout = stdout +:+ unlines tags.
Proof.
  unfold printTags. revert stdout. induction tags as [|t tags IH]; intros stdout; cbn.
  - now rewrite append_nil_r.
  - rewrite IH. unfold Printf. rewrite Sprintf_line. now rewrite !append_assoc.
Qed.

Lemma printTagsHeader_unlines : printTagsHeader EmptyString = unlines headerLines.
Proof. reflexivity. Qed.

Lemma unlines_app (l1 l2 : list string) : unlines (l1 ++ l2) = unlines l1 +:+ unlines l2.
Proof.
  unfold unlines. induction l1 as [|t l1 IH]; [reflexivity|].
  cbn. rewrite IH. now rewrite !append_assoc.
Qed.


(** ** The run *)

Lemma main_unlines (o : RangeOrder) (files : list string) :
  main o files = (fun tags => unlines (headerLines ++ tags)) <$> sortedTags o files.
Proof.
  unfold main. destruct (sortedTags o files) as [tags|]; [|reflexivity].
  change (Some (printTags tags (printTagsHeader EmptyString))
          = Some (unlines (headerLines ++ tags))).
  now rewrite printTags_unlines, printTagsHeader_unlines, unlines_app.
Qed.

Lemma splitLinesFrom_line (cur t rest : string) :
  contains NL t = false ->
  splitLinesFrom cur (t +:+ String NL rest) = (cur +:+ t) :: splitLinesFrom EmptyString rest.
Proof.
  revert cur. induction t as [|c t IH]; intros cur Ht.
  - rewrite append_nil_r. reflexivity.
  - cbn [contains] in Ht. apply orb_false_elim in Ht as [Hc Ht].
    change (String c t +:+ String NL rest) with (String c (t +:+ String NL rest)).
    cbn [splitLinesFrom]. rewrite Hc, (IH _ Ht), append_assoc. reflexivity.
Qed.

(** A reader that splits the output at the newlines finds the lines
    that were printed, when none of them holds a newline. *)
Lemma outputLines_unlines (l : list string) :
  Forall (fun t => contains NL t = false) l -> outputLines (unlines l) = l.
Proof.
  unfold outputLines. induction 1 as [|t l Ht Hl IH]; [reflexivity|].
  change (unlines (t :: l)) with (t +:+ String NL (unlines l)).
  rewrite (splitLinesFrom_line _ _ _ Ht), IH. reflexivity.
Qed.

Lemma headerLines_no_newline : Forall (fun t => contains NL t = false) headerLines.
Proof. repeat constructor. Qed.

(** C3.  When the run completes, what it prints is the five header lines
    followed by the tag lines, and the tag lines are in increasing
    byte-wise order: a line never follows a greater one.  When no tag
    line holds a newline, these are the lines a reader of the output
    finds. *)
Theorem tag_lines_sorted (o : RangeOrder) (files : list string) (tags : list string) :
  sortedTags o files = Some tags ->
  main o files = Some (unlines (headerLines ++ tags))
  /\ (forall (i j : nat) (a b : string),
         (i < j)%nat -> tags !! i = Some a -> tags !! j = Some b -> String.leb a b = true)
  /\ (Forall (fun t => contains NL t = false) tags ->
      outputLines (unlines (headerLines ++ tags)) = headerLines ++ tags).
Proof.
  intros Hsorted. split; [|split].
  - rewrite main_unlines, Hsorted. reflexivity.
  - unfold sortedTags in Hsorted. destruct (parseFiles files) as [pkgs first].
    destruct (collectTags o pkgs []) as [collected|]; [|discriminate].
    inversion Hsorted; subst. intros i j a b.
    apply StronglySorted_lookup_le, sort_Strings_sorted.
  - intros Htags. apply outputLines_unlines.
    apply Forall_app. split; [apply headerLines_no_newline|exact Htags].
Qed.

Lemma sortedTags_order (o1 o2 : RangeOrder) (files : list string) :
  validOrder o1 -> validOrder o2 -> sortedTags o1 files = sortedTags o2 files.
Proof.
  intros Ho1 Ho2. unfold sortedTags. destruct (parseFiles files) as [pkgs first].
  rewrite !collectTags_visitedFiles.
  pose proof (forEach_Permutation _ _ _ handleFile_appendOnly
                (visitedFiles_Permutation o1 o2 pkgs Ho1 Ho2)) as Hperm.
  destruct Hperm as [t1 t2 Hperm|]; [|reflexivity]. cbn.
  now rewrite (sort_Strings_unique t1 t2 Hperm).
Qed.

(** C7.  Two runs over the same files in the same environment print the
    same bytes, whatever the orders in which they range over the maps of
    packages and of files. *)
Theorem main_deterministic (o1 o2 : RangeOrder) (files : list string) :
  validOrder o1 -> validOrder o2 -> main o1 files = main o2 files.
Proof.
  intros Ho1 Ho2. unfold main. now rewrite (sortedTags_order o1 o2 files Ho1 Ho2).
Qed.


(** ** Parsing the files *)

Lemma parseFile_parsed (pkgs : gmap string Package) (first : option error)
    (fn : string) (src : File) :
  parser_ParseFile fn = Parsed src ->
  parseFile (pkgs, first) fn
  = (<[Name (PkgName src) :=
         mkPackage (PName (default (mkPackage (Name (PkgName src)) ∅)
                                   (pkgs !! Name (PkgName src))))
                   (<[fn := src]>
                      (Files (default (mkPackage (Name (PkgName src)) ∅)
                                      (pkgs !! Name (PkgName src)))))]> pkgs,
     first).
Proof.
  intros Hparse. unfold parseFile. rewrite Hparse.
  destruct (pkgs !! Name (PkgName src)); reflexivity.
Qed.

Lemma parseFile_failed (pkgs : gmap string Package) (first : option error)
    (fn : string) (err : error) :
  parser_ParseFile fn = ParseError err ->
  parseFile (pkgs, first) fn
  = (pkgs, match first with None => Some err | Some _ => first end).
Proof. intros Hparse. unfold parseFile. now rewrite Hparse. Qed.

Lemma parseFile_parsedIn (pkgs : gmap string Package) (first : option error)
    (done : list string) (fn : string) :
  parsedIn pkgs done -> parsedIn (parseFile (pkgs, first) fn).1 (done ++ [fn]).
Proof.
  intros [Hin Hall]. destruct (parser_ParseFile fn) as [src|err] eqn:Hparse.
  - rewrite (parseFile_parsed _ _ _ _ Hparse). cbn [fst].
    set (name := Name (PkgName src)).
    set (pkg0 := default (mkPackage name ∅) (pkgs !! name)).
    split.
    + intros name' pkg fn' src' Hpkg Hfile.
      destruct (decide (name = name')) as [<-|Hname].
      * rewrite lookup_insert_eq in Hpkg. inversion Hpkg; subst pkg. cbn [Files] in Hfile.
        destruct (decide (fn = fn')) as [<-|Hfn].
        -- rewrite lookup_insert_eq in Hfile. inversion Hfile; subst src'.
           split; [assumption|]. split; [|reflexivity].
           apply elem_of_app. right. apply list_elem_of_singleton. reflexivity.
        -- rewrite lookup_insert_ne in Hfile by assumption.
           subst pkg0. destruct (pkgs !! name) as [pkg1|] eqn:Hpkg1; cbn in Hfile.
           ++ destruct (Hin name pkg1 fn' src' Hpkg1 Hfile) as (? & ? & ?).
              split; [assumption|]. split; [|assumption].
              apply elem_of_app. now left.
           ++ rewrite lookup_empty in Hfile. discriminate.
      * rewrite lookup_insert_ne in Hpkg by assumption.
        destruct (Hin name' pkg fn' src' Hpkg Hfile) as (? & ? & ?).
        split; [assumption|]. split; [|assumption]. apply elem_of_app. now left.
    + intros fn' src' Hdone Hparse'.
      destruct (decide (fn = fn')) as [<-|Hfn].
      * rewrite Hparse in Hparse'. inversion Hparse'; subst src'.
        eexists. split; [apply lookup_insert_eq|]. cbn [Files]. apply lookup_insert_eq.
      * apply elem_of_app in Hdone as [Hdone|Hdone];
          [|apply list_elem_of_singleton in Hdone; congruence].
        destruct (Hall fn' src' Hdone Hparse') as (pkg & Hpkg & Hfile).
        destruct (decide (name = Name (PkgName src'))) as [Hname|Hname].
        -- rewrite <- Hname in *. eexists. split; [apply lookup_insert_eq|].
           cbn [Files]. rewrite lookup_insert_ne by assumption.
           subst pkg0. rewrite Hpkg. exact Hfile.
        -- exists pkg. split; [|assumption]. now rewrite lookup_insert_ne.
  - rewrite (parseFile_failed _ _ _ _ Hparse). cbn [fst]. split.
    + intros name pkg fn' src Hpkg Hfile.
      destruct (Hin name pkg fn' src Hpkg Hfile) as (? & ? & ?).
      split; [assumption|]. split; [|assumption]. apply elem_of_app. now left.
    + intros fn' src Hdone Hparse'.
      apply elem_of_app in Hdone as [Hdone|Hdone]; [now apply Hall|].
      apply list_elem_of_singleton in Hdone. congruence.
Qed.

Lemma foldl_parseFile_parsedIn (files done : list string)
    (acc : gmap string Package * option error) :
  parsedIn acc.1 done -> parsedIn (foldl parseFile acc files).1 (done ++ files).
Proof.
  revert done acc. induction files as [|fn files IH]; intros done acc Hinv; cbn [foldl].
  - now rewrite app_nil_r.
  - replace (done ++ fn :: files) with ((done ++ [fn]) ++ files)
      by now rewrite <- app_assoc.
    apply IH. destruct acc as [pkgs first]. now apply parseFile_parsedIn.
Qed.

Lemma parseFiles_parsedIn (files : list string) : parsedIn (parseFiles files).1 files.
Proof.
  apply (foldl_parseFile_parsedIn files [] (∅, None)). split.
  - intros name pkg fn src Hpkg. cbn in Hpkg. rewrite lookup_empty in Hpkg. discriminate.
  - intros fn src Hdone. now apply elem_of_nil in Hdone.
Qed.


Lemma firstError_cons (fn : string) (files : list string) :
  firstError (fn :: files)
  = match parseErrorOf fn with
    | Some err => Some err
    | None => firstError files
    end.
Proof. unfold firstError. cbn. destruct (parseErrorOf fn); reflexivity. Qed.

Lemma foldl_parseFile_first (files : list string) (pkgs : gmap string Package)
    (first : option error) :
  (foldl parseFile (pkgs, first) files).2
  = match first with
    | Some err => Some err
    | None => firstError files
    end.
Proof.
  revert pkgs first. induction files as [|fn files IH]; intros pkgs first; cbn [foldl].
  - now destruct first.
  - rewrite firstError_cons. unfold parseErrorOf.
    destruct (parser_ParseFile fn) as [src|err] eqn:Hparse.
    + rewrite (parseFile_parsed _ _ _ _ Hparse), IH. reflexivity.
    + rewrite (parseFile_failed _ _ _ _ Hparse), IH. now destruct first.
Qed.

Lemma foldl_parseFile_filter (files : list string) (pkgs : gmap string Package)
    (first first' : option error) :
  (foldl parseFile (pkgs, first) files).1
  = (foldl parseFile (pkgs, first') (filter (fun fn => parsedOk fn = true) files)).1.
Proof.
  revert pkgs first first'. induction files as [|fn files IH]; intros pkgs first first';
    [reflexivity|].
  cbn [foldl]. destruct (parser_ParseFile fn) as [src|err] eqn:Hparse.
  - rewrite filter_cons_True by (unfold parsedOk; now rewrite Hparse).
    cbn [foldl]. rewrite !(parseFile_parsed _ _ _ _ Hparse). apply IH.
  - rewrite filter_cons_False by (unfold parsedOk; now rewrite Hparse).
    rewrite (parseFile_failed _ _ _ _ Hparse). apply IH.
Qed.

Lemma parseFiles_all_failed (files : list string) :
  (forall fn, fn ∈ files -> parsedOk fn = false) -> (parseFiles files).1 = ∅.
Proof.
  intros Hfail. unfold parseFiles.
  rewrite (foldl_parseFile_filter files ∅ None None).
  replace (filter (fun fn => parsedOk fn = true) files) with (@nil string); [reflexivity|].
  symmetry. induction files as [|fn files IH]; [reflexivity|].
  rewrite filter_cons_False.
  - apply IH. intros fn' Hfn'. apply Hfail. now right.
  - rewrite (Hfail fn) by now left. discriminate.
Qed.

Lemma elem_of_visitedFiles (o : RangeOrder) (pkgs : gmap string Package)
    (fn : string) (src : File) :
  validOrder o ->
  (fn, src) ∈ visitedFiles o pkgs
  <-> exists name pkg, pkgs !! name = Some pkg /\ Files pkg !! fn = Some src.
Proof.
  intros [Hpkgs Hfiles]. unfold visitedFiles. rewrite list_elem_of_bind. split.
  - intros ([name pkg] & Hfile & Hpkg).
    rewrite (Hpkgs pkgs) in Hpkg. rewrite (Hfiles (Files pkg)) in Hfile.
    apply elem_of_map_to_list in Hpkg, Hfile. eauto.
  - intros (name & pkg & Hpkg & Hfile). exists (name, pkg).
    rewrite (Hpkgs pkgs), (Hfiles (Files pkg)).
    split; now apply elem_of_map_to_list.
Qed.

Lemma NoDup_visitedFiles (o : RangeOrder) (pkgs : gmap string Package)
    (done : list string) :
  validOrder o -> parsedIn pkgs done -> NoDup (visitedFiles o pkgs).
Proof.
  intros [Hpkgs Hfiles] [Hin _]. unfold visitedFiles. apply NoDup_bind.
  - intros [name1 pkg1] [name2 pkg2] [fn src] H1 H2 Hf1 Hf2.
    rewrite (Hpkgs pkgs) in H1, H2.
    rewrite (Hfiles _) in Hf1. rewrite (Hfiles _) in Hf2. cbn [snd] in Hf1, Hf2.
    apply elem_of_map_to_list in H1, H2, Hf1, Hf2.
    destruct (Hin _ _ _ _ H1 Hf1) as (_ & _ & <-).
    destruct (Hin _ _ _ _ H2 Hf2) as (_ & _ & <-).
    congruence.
  - intros [name pkg] _. rewrite (Hfiles _). apply NoDup_map_to_list.
  - rewrite (Hpkgs pkgs). apply NoDup_map_to_list.
Qed.

(** C8, as the code has it.  A file that does not parse enters no
    package, and a file that parses enters the package it names; the run
    visits each file that parses once and handles its declarations, in
    some order; [parseFiles] returns the first failure to [main], which
    drops it: the run prints what it prints without the failing files. *)
Theorem parse_failures_skipped (o : RangeOrder) (files : list string) :
  validOrder o ->
  (forall fn err name pkg,
      parser_ParseFile fn = ParseError err ->
      (parseFiles files).1 !! name = Some pkg -> Files pkg !! fn = None)
  /\ (forall fn src,
         fn ∈ files -> parser_ParseFile fn = Parsed src ->
         exists pkg, (parseFiles files).1 !! Name (PkgName src) = Some pkg
                     /\ Files pkg !! fn = Some src)
  /\ (exists visited : list (string * File),
         NoDup visited
         /\ (forall fn src,
                (fn, src) ∈ visited <-> fn ∈ files /\ parser_ParseFile fn = Parsed src)
         /\ collectTags o (parseFiles files).1 []
            = forEach (fun file tags => handleDecls (Decls file.2) tags) visited [])
  /\ (parseFiles files).2 = firstError files
  /\ main o files = main o (filter (fun fn => parsedOk fn = true) files).
Proof.
  intros Ho. destruct (parseFiles_parsedIn files) as [Hin Hall].
  split; [|split; [|split; [|split]]].
  - intros fn err name pkg Hparse Hpkg.
    destruct (Files pkg !! fn) as [src|] eqn:Hfile; [|reflexivity].
    destruct (Hin _ _ _ _ Hpkg Hfile) as (Hparse' & _). congruence.
  - exact Hall.
  - exists (visitedFiles o (parseFiles files).1). split; [|split].
    + apply (NoDup_visitedFiles o _ files Ho). now split.
    + intros fn src. rewrite (elem_of_visitedFiles o _ fn src Ho). split.
      * intros (name & pkg & Hpkg & Hfile).
        destruct (Hin _ _ _ _ Hpkg Hfile) as (? & ? & _). now split.
      * intros [Hfn Hparse]. destruct (Hall fn src Hfn Hparse) as (pkg & ? & ?). eauto.
    + apply collectTags_visitedFiles.
  - apply (foldl_parseFile_first files ∅ None).
  - unfold main, sortedTags.
    pose proof (foldl_parseFile_filter files ∅ None None) as Hfilter.
    fold (parseFiles files) in Hfilter.
    fold (parseFiles (filter (fun fn => parsedOk fn = true) files)) in Hfilter.
    destruct (parseFiles files) as [pkgs first].
    destruct (parseFiles (filter (fun fn => parsedOk fn = true) files)) as [pkgs' first'].
    cbn [fst] in Hfilter. now subst pkgs'.
Qed.

(** C9.  When no file of the list parses, the run completes and prints
    the five header lines and nothing else. *)
Theorem no_valid_file_header_only (o : RangeOrder) (files : list string) :
  validOrder o ->
  (forall fn, fn ∈ files -> parsedOk fn = false) ->
  sortedTags o files = Some []
  /\ main o files
     = Some (TAG_FILE_FORMAT +:+ str NL +:+ TAG_FILE_SORTED +:+ str NL
             +:+ TAG_PROGRAM_AUTHOR +:+ str NL +:+ TAG_PROGRAM_NAME +:+ str NL
             +:+ TAG_PROGRAM_URL +:+ str NL).
Proof.
  intros [Hpkgs _] Hfail.
  assert (sortedTags o files = Some []) as Hsorted.
  { unfold sortedTags. pose proof (parseFiles_all_failed files Hfail) as Hempty.
    destruct (parseFiles files) as [pkgs first]. cbn [fst] in Hempty. subst pkgs.
    unfold collectTags. pose proof (Hpkgs ∅) as Hnil.
    rewrite map_to_list_empty in Hnil. apply Permutation_nil_r in Hnil.
    rewrite Hnil. reflexivity. }
  split; [exact Hsorted|]. unfold main. rewrite Hsorted. reflexivity.
Qed.


Lemma scanLines_empty_file (fuel : nat) (ln line : Z) (cl : list byte) :
  scanLines fuel [] ln line = Some cl -> cl = [].
Proof.
  revert ln. induction fuel as [|fuel IH]; intros ln Hscan; [discriminate|].
  rewrite scanLines_unfold in Hscan. cbn [ReadBytes andb] in Hscan.
  destruct (ln <? line); [congruence|].
  destruct (ln =? line); [cbn in Hscan; congruence|].
  now apply (IH (GoInt.incr ln)).
Qed.


(** ** More on the declaration classifier *)

(** X1.  A [const] declaration yields one tag of kind [d] for each
    identifier it declares, a [var] declaration one tag of kind [v], in
    the order of the source, each at the position of its identifier and
    with no scope. *)
Theorem genDecl_value_tags (vss : list ValueSpec) (tags : list string) :
  genDecl (mkGenDecl CONST_tok (map ValueSpecNode vss)) tags
  = tags ++ map (fun id => tagLine (tagAt (Name id) (NamePos id) CONST EmptyString))
                (concat (map VSNames vss))
  /\ genDecl (mkGenDecl VAR_tok (map ValueSpecNode vss)) tags
     = tags ++ map (fun id => tagLine (tagAt (Name id) (NamePos id) VAR EmptyString))
                   (concat (map VSNames vss)).
Proof.
  unfold genDecl. cbn [Specs Tok]. split.
  - revert tags. induction vss as [|vs vss IH]; intros tags; cbn [map foldl concat].
    + now rewrite app_nil_r.
    + rewrite IH, foldl_emitTag, map_app, app_assoc. reflexivity.
  - revert tags. induction vss as [|vs vss IH]; intros tags; cbn [map foldl concat].
    + now rewrite app_nil_r.
    + rewrite IH, foldl_emitTag, map_app, app_assoc. reflexivity.
Qed.

Lemma foldl_length_sum {A : Type} (g : list string -> A -> list string) (c : A -> nat)
    (l : list A) (tags : list string) :
  (forall x t, length (g t x) = (length t + c x)%nat) ->
  length (foldl g tags l) = (length tags + sum_list (map c l))%nat.
Proof.
  intros Hg. revert tags. induction l as [|x l IH]; intros tags; cbn.
  - lia.
  - rewrite IH, Hg. lia.
Qed.

Lemma typeSpec_length (spec : TypeSpec) (tags : list string) :
  length (typeSpec spec tags) = (length tags + typeSymbols (TSType spec))%nat.
Proof.
  unfold typeSpec, typeSymbols. destruct (TSType spec);
    rewrite ?foldl_fields_emitTag, ?emitTag_tagLine, ?length_app, ?length_map;
    try (cbn [length]; lia).
  - fold (fieldNames Fields). rewrite length_fieldNames. cbn [length]. lia.
  - fold (fieldNames Methods). rewrite length_fieldNames. cbn [length]. lia.
Qed.

Lemma genDecl_length (decl : GenDecl) (tags : list string) :
  length (genDecl decl tags)
  = (length tags + sum_list (map specSymbols (Specs decl)))%nat.
Proof.
  unfold genDecl. apply foldl_length_sum. intros spec t.
  destruct spec as [path|vs|ts]; cbn [specSymbols].
  - lia.
  - now rewrite foldl_emitTag, length_app, length_map.
  - apply typeSpec_length.
Qed.

Lemma funcDecl_None (decl : FuncDecl) (tags : list string) :
  funcDecl decl tags = None <-> emptyReceiver (FuncDeclNode decl) = true.
Proof.
  unfold funcDecl, emptyReceiver. destruct (Recv decl) as [recv|]; cbn.
  - destruct (List recv) as [|f fs]; cbn; split; congruence.
  - split; congruence.
Qed.

Lemma funcDecl_length (decl : FuncDecl) (tags tags' : list string) :
  funcDecl decl tags = Some tags' -> length tags' = S (length tags).
Proof.
  unfold funcDecl. intros H.
  destruct (match Recv decl with
            | Some recv => List recv !! 0%nat ≫= fun f => Some ("class:" +:+ typeName (FType f))
            | None => Some EmptyString
            end) as [recvType|]; cbn -[emitTag] in H; [|discriminate].
  inversion H; subst. rewrite emitTag_tagLine, length_app. cbn. lia.
Qed.

Lemma forEach_None {A : Type} (f : A -> list string -> option (list string))
    (l : list A) (tags : list string) :
  appendOnly f -> forEach f l tags = None <-> Exists (fun x => f x [] = None) l.
Proof.
  intros Hf. revert tags. induction l as [|x l IH]; intros tags; cbn.
  - split; [discriminate|]. intros H. inversion H.
  - rewrite Exists_cons, (Hf x tags). destruct (f x []) as [out|]; cbn.
    + rewrite IH. split; [auto|]. intros [?|?]; [discriminate|assumption].
    + split; auto.
Qed.

Lemma handleDecl_appendOnly :
  appendOnly (fun decl tags =>
                match decl with
                | FuncDeclNode decl => funcDecl decl tags
                | GenDeclNode decl => Some (genDecl decl tags)
                | _ => Some tags
                end).
Proof.
  intros decl t. destruct decl as [from|d|d].
  - cbn. now rewrite app_nil_r.
  - apply funcDecl_frame.
  - cbn. now rewrite genDecl_frame.
Qed.

Lemma handleDecls_panics_iff_aux (decls : list Decl) (tags : list string) :
  handleDecls decls tags = None <-> Exists (fun d => emptyReceiver d = true) decls.
Proof.
  unfold handleDecls. rewrite (forEach_None _ _ _ handleDecl_appendOnly).
  rewrite !Exists_exists.
  split; intros (d & Hin & Hd); exists d; (split; [exact Hin|]);
    destruct d as [from|d|d]; try discriminate; now apply (funcDecl_None d []).
Qed.

(** X2.  [handleDecls] panics exactly when one of the declarations is a
    method whose receiver list is empty; nothing else stops it, and all
    the declarations are then handled. *)
Theorem handleDecls_panics_iff (decls : list Decl) (tags : list string) :
  (handleDecls decls tags = None <-> Exists (fun d => emptyReceiver d = true) decls)
  /\ (is_Some (handleDecls decls tags)
      <-> Forall (fun d => emptyReceiver d = false) decls).
Proof.
  split; [apply handleDecls_panics_iff_aux|].
  rewrite <- not_eq_None_Some, handleDecls_panics_iff_aux, <- Forall_Exists_neg.
  apply Forall_iff. intros d. now destruct (emptyReceiver d).
Qed.

Lemma handleDecls_length (decls : list Decl) (tags tags' : list string) :
  handleDecls decls tags = Some tags' ->
  length tags' = (length tags + sum_list (map declSymbols decls))%nat.
Proof.
  unfold handleDecls. revert tags. induction decls as [|d decls IH]; intros tags H.
  - inversion H; subst. cbn. lia.
  - cbn [forEach] in H. cbn [map sum_list sum_list_with].
    destruct d as [from|d|d]; cbn -[funcDecl genDecl] in H.
    + rewrite (IH _ H). cbn. lia.
    + destruct (funcDecl d tags) as [t|] eqn:Hd; cbn in H; [|discriminate].
      rewrite (IH _ H), (funcDecl_length _ _ _ Hd). cbn. lia.
    + rewrite (IH _ H), genDecl_length. cbn. lia.
Qed.

(** X3.  When [handleDecls] returns, it has added one tag for each
    symbol of the declarations: one per function or method, one per
    identifier of a value specification, one per type and one more per
    named field of a struct or named method of an interface; an import
    and a bad declaration add none. *)
Theorem handleDecls_tag_count (decls : list Decl) (tags tags' : list string) :
  handleDecls decls tags = Some tags' ->
  length tags' = (length tags + sum_list (map declSymbols decls))%nat.
Proof. apply handleDecls_length. Qed.

(** X4.  [handleDecls] only appends: the tags collected before are kept
    as they are, in front, and the tags of two lists of declarations
    handled one after the other are the tags of the first followed by
    the tags of the second. *)
Theorem handleDecls_appends (decls decls' : list Decl) (tags : list string) :
  handleDecls decls tags = (fun out => tags ++ out) <$> handleDecls decls []
  /\ handleDecls (decls ++ decls') []
     = (out ← handleDecls decls []; (out' ← handleDecls decls' []; Some (out ++ out'))).
Proof.
  split; [apply handleDecls_frame|].
  unfold handleDecls at 1. rewrite forEach_app. fold (handleDecls decls []).
  destruct (handleDecls decls []) as [out|]; [|reflexivity]. cbn.
  fold (handleDecls decls' out). rewrite handleDecls_frame. reflexivity.
Qed.


(** ** More on the line resolver *)

Lemma ReadBytes_shape (r cl r' : list byte) (eof : bool) :
  ReadBytes newline r = (cl, eof, r') ->
  exists l, (newline ∉ l) /\ cl = if eof then l else l ++ [newline].
Proof.
  revert cl eof r'. induction r as [|b r IH]; intros cl eof r' H; cbn in H.
  - inversion H; subst. exists []. split; [apply not_elem_of_nil|reflexivity].
  - destruct (Byte.eqb b newline) eqn:Eb.
    + inversion H; subst. apply Byte.byte_dec_bl in Eb. subst b.
      exists []. split; [apply not_elem_of_nil|reflexivity].
    + destruct (ReadBytes newline r) as [[cl0 eof0] r0]. inversion H; subst.
      destruct (IH cl0 eof r' eq_refl) as (l & Hl & Hcl).
      exists (b :: l). split.
      * intros Hin. apply elem_of_cons in Hin as [Hin|Hin]; [|now apply Hl].
        subst b. pose proof (Byte.byte_dec_lb (eq_refl newline)) as Hnl. congruence.
      * rewrite Hcl. now destruct eof.
Qed.

Lemma scanLines_no_newline (fuel : nat) (r : list byte) (ln line : Z) (cl : list byte) :
  scanLines fuel r ln line = Some cl -> newline ∉ cl.
Proof.
  revert r ln. induction fuel as [|fuel IH]; intros r ln H; [discriminate|].
  rewrite scanLines_unfold in H.
  destruct (ReadBytes newline r) as [[cl' eof] r'] eqn:Eread.
  destruct (eof && (ln <? line)).
  - inversion H; subst. apply not_elem_of_nil.
  - destruct (ln =? line); [|now apply (IH r' (GoInt.incr ln))].
    inversion H; subst. clear H.
    destruct (ReadBytes_shape _ _ _ _ Eread) as (l & Hl & ->).
    destruct eof.
    + destruct (0 <? length l)%nat; [|exact Hl].
      intros Hin. apply Hl. eapply subseteq_take. exact Hin.
    + rewrite cut_last_byte. exact Hl.
Qed.

(** X7.  What the resolver returns never holds a newline, whatever the
    file and the line asked for. *)
Theorem contentOfLine_no_newline (line : Z) (file : string) :
  newline ∉ contentOfLine line file.
Proof.
  unfold contentOfLine. destruct (os_Open file) as [r|]; [|apply not_elem_of_nil].
  destruct (scanLines (scanBound line) r 1 line) as [cl|] eqn:Hscan.
  - cbn. now apply (scanLines_no_newline _ _ _ _ _ Hscan).
  - apply not_elem_of_nil.
Qed.

Lemma contains_append (c : ascii) (s1 s2 : string) :
  contains c (s1 +:+ s2) = contains c s1 || contains c s2.
Proof.
  induction s1 as [|c1 s1 IH]; [reflexivity|].
  change (String c1 s1 +:+ s2) with (String c1 (s1 +:+ s2)).
  cbn [contains]. rewrite IH. now rewrite orb_assoc.
Qed.

Lemma contains_string_of_list_byte (l : list byte) :
  newline ∉ l -> contains NL (string_of_list_byte l) = false.
Proof.
  induction l as [|b l IH]; intros Hl; [reflexivity|].
  change (string_of_list_byte (b :: l))
    with (String (ascii_of_byte b) (string_of_list_byte l)).
  cbn [contains]. rewrite IH by (intros Hin; apply Hl; now right).
  rewrite orb_false_r. apply Ascii.eqb_neq. intros Hb. apply Hl.
  apply (f_equal byte_of_ascii) in Hb. rewrite byte_of_ascii_of_byte in Hb.
  subst b. now left.
Qed.

(** X8.  A tag whose name, file name and scope hold no newline, and
    whose kind is not the newline, is one line of the output: the line
    [emitTag] appends holds no newline, whatever the source line. *)
Theorem emitTag_single_line (tag : string) (pos : Pos) (kind : ascii) (extra : string)
    (tags : list string) :
  contains NL tag = false ->
  contains NL (Filename (fset_Position pos)) = false ->
  contains NL extra = false ->
  kind <> NL ->
  exists line,
    emitTag tag pos kind extra tags = tags ++ [line] /\ contains NL line = false.
Proof.
  intros Htag Hfile Hextra Hkind. eexists. split; [apply emitTag_tagLine|].
  unfold tagLine, tagFields, tagAt, searchPattern, String.concat.
  cbn [tagName tagFile tagContent tagKind tagScope].
  rewrite !contains_append, Htag, Hfile, Hextra.
  rewrite (contains_string_of_list_byte _ (contentOfLine_no_newline _ _)).
  cbn [contains str orb]. rewrite orb_false_r.
  apply Ascii.eqb_neq in Hkind. rewrite Hkind. reflexivity.
Qed.


(** ** More on the run *)

Lemma forEach_mapM {A : Type} (f : A -> list string -> option (list string))
    (l : list A) (tags : list string) :
  appendOnly f ->
  forEach f l tags = (fun outs => tags ++ concat outs) <$> mapM (fun x => f x []) l.
Proof.
  intros Hf. revert tags. induction l as [|x l IH]; intros tags; cbn.
  - now rewrite app_nil_r.
  - rewrite (Hf x tags). destruct (f x []) as [out|]; cbn; [|reflexivity].
    rewrite IH. destruct (mapM (fun x => f x []) l) as [outs|]; cbn; [|reflexivity].
    now rewrite app_assoc.
Qed.

Lemma sortedTags_collectTags (o : RangeOrder) (files : list string) :
  sortedTags o files
  = (tags ← collectTags o (parseFiles files).1 []; Some (sort_Strings tags)).
Proof. unfold sortedTags. now destruct (parseFiles files). Qed.

Lemma elem_of_visitedFiles_parsed (o : RangeOrder) (files : list string)
    (fn : string) (src : File) :
  validOrder o ->
  (fn, src) ∈ visitedFiles o (parseFiles files).1
  <-> fn ∈ files /\ parser_ParseFile fn = Parsed src.
Proof.
  intros Ho. destruct (parseFiles_parsedIn files) as [Hin Hall].
  rewrite (elem_of_visitedFiles o _ fn src Ho). split.
  - intros (name & pkg & Hpkg & Hfile).
    destruct (Hin _ _ _ _ Hpkg Hfile) as (? & ? & _). now split.
  - intros [Hfn Hparse]. destruct (Hall fn src Hfn Hparse) as (pkg & ? & ?). eauto.
Qed.

(** X9.  The tag lines a run prints are, up to their order, the tags of
    the files that parse, each file taken once: no tag is dropped and
    tags that are equal are all kept. *)
Theorem sortedTags_of_parsed_files (o : RangeOrder) (files : list string)
    (tags : list string) :
  validOrder o ->
  sortedTags o files = Some tags ->
  exists (visited : list (string * File)) (perFile : list (list string)),
    NoDup visited
    /\ (forall fn src,
           (fn, src) ∈ visited <-> fn ∈ files /\ parser_ParseFile fn = Parsed src)
    /\ Forall2 (fun file out => handleDecls (Decls file.2) [] = Some out) visited perFile
    /\ tags ≡ₚ concat perFile
    /\ length tags = sum_list (map length perFile).
Proof.
  intros Ho Hsorted. rewrite sortedTags_collectTags, collectTags_visitedFiles in Hsorted.
  rewrite (forEach_mapM _ _ _ handleFile_appendOnly) in Hsorted.
  destruct (mapM (fun file : string * File => handleDecls (Decls file.2) [])
              (visitedFiles o (parseFiles files).1)) as [perFile|] eqn:HmapM;
    cbn in Hsorted; [|discriminate].
  inversion Hsorted; subst tags. clear Hsorted.
  exists (visitedFiles o (parseFiles files).1), perFile.
  split; [|split; [|split; [|split]]].
  - apply (NoDup_visitedFiles o _ files Ho), parseFiles_parsedIn.
  - intros fn src. now apply elem_of_visitedFiles_parsed.
  - now apply mapM_Some_1.
  - apply sort_Strings_Permutation.
  - rewrite (Permutation_length (sort_Strings_Permutation _)).
    clear HmapM. induction perFile as [|out outs IH]; [reflexivity|].
    cbn. rewrite length_app, IH. reflexivity.
Qed.

(** Once the list of files is known, the rest of the run panics exactly
    when one of the files that parse declares a method with an empty
    receiver list. *)
Lemma main_None_iff (o : RangeOrder) (files : list string) :
  validOrder o ->
  main o files = None
  <-> exists fn src,
      fn ∈ files /\ parser_ParseFile fn = Parsed src
      /\ Exists (fun d => emptyReceiver d = true) (Decls src).
Proof.
  intros Ho. rewrite main_unlines, sortedTags_collectTags, collectTags_visitedFiles.
  destruct (forEach (fun (file : string * File) tags => handleDecls (Decls file.2) tags)
              (visitedFiles o (parseFiles files).1) []) as [tags|] eqn:Hrun; cbn.
  - split; [discriminate|]. intros (fn & src & Hfn & Hparse & Hbad). exfalso.
    assert (forEach (fun (file : string * File) tags => handleDecls (Decls file.2) tags)
              (visitedFiles o (parseFiles files).1) [] = None) as Hnone; [|congruence].
    apply (forEach_None _ _ _ handleFile_appendOnly), Exists_exists.
    exists (fn, src). split.
    + apply (elem_of_visitedFiles_parsed o files fn src Ho). now split.
    + now apply handleDecls_panics_iff_aux.
  - split; [intros _|reflexivity].
    apply (forEach_None _ _ _ handleFile_appendOnly), Exists_exists in Hrun.
    destruct Hrun as ([fn src] & Hin & Hnone).
    apply (elem_of_visitedFiles_parsed o files fn src Ho) in Hin as [Hfn Hparse].
    exists fn, src. split; [exact Hfn|]. split; [exact Hparse|].
    now apply (handleDecls_panics_iff_aux (Decls src) []).
Qed.

Lemma main_depends_on_file_set_aux (o o' : RangeOrder) (files files' : list string) :
  validOrder o -> validOrder o' ->
  (forall fn, fn ∈ files <-> fn ∈ files') ->
  main o files = main o' files'.
Proof.
  intros Ho Ho' Hset. rewrite !main_unlines. f_equal.
  rewrite !sortedTags_collectTags, !collectTags_visitedFiles.
  assert (visitedFiles o (parseFiles files).1 ≡ₚ visitedFiles o' (parseFiles files').1)
    as Hperm.
  { apply NoDup_Permutation.
    - apply (NoDup_visitedFiles o _ files Ho), parseFiles_parsedIn.
    - apply (NoDup_visitedFiles o' _ files' Ho'), parseFiles_parsedIn.
    - intros [fn src].
      rewrite (elem_of_visitedFiles_parsed o files fn src Ho).
      rewrite (elem_of_visitedFiles_parsed o' files' fn src Ho').
      now rewrite (Hset fn). }
  destruct (forEach_Permutation _ _ _ handleFile_appendOnly Hperm) as [t1 t2 Ht|];
    [|reflexivity].
  cbn. now rewrite (sort_Strings_unique t1 t2 Ht).
Qed.

(** X11.  What a run prints depends on the file names it is given only
    through their set: giving a name twice, or the names in another
    order, changes nothing. *)
Theorem main_depends_on_file_set (o o' : RangeOrder) (files files' : list string) :
  validOrder o -> validOrder o' ->
  (forall fn, fn ∈ files <-> fn ∈ files') ->
  main o files = main o' files'.
Proof. apply main_depends_on_file_set_aux. Qed.


(** ** More on parsing the files *)

Lemma firstError_None (files : list string) :
  firstError files = None <-> Forall (fun fn => parsedOk fn = true) files.
Proof.
  clear fset_Position os_Open.
  induction files as [|fn files IH]; [split; [constructor|reflexivity]|].
  rewrite firstError_cons, Forall_cons. unfold parseErrorOf, parsedOk at 1.
  destruct (parser_ParseFile fn) as [src|err].
  - rewrite IH. tauto.
  - split; [discriminate|]. intros [? _]. discriminate.
Qed.

Lemma firstError_Some (files : list string) (err : error) :
  firstError files = Some err
  <-> exists pre fn post,
      files = pre ++ fn :: post
      /\ Forall (fun f => parsedOk f = true) pre
      /\ parser_ParseFile fn = ParseError err.
Proof.
  induction files as [|fn files IH].
  - split; [discriminate|]. intros (pre & f & post & Heq & _).
    now destruct pre.
  - rewrite firstError_cons. unfold parseErrorOf.
    destruct (parser_ParseFile fn) as [src|err'] eqn:Hparse.
    + rewrite IH. split.
      * intros (pre & f & post & -> & Hpre & Hf). exists (fn :: pre), f, post.
        split; [reflexivity|]. split; [|exact Hf].
        constructor; [|exact Hpre]. unfold parsedOk. now rewrite Hparse.
      * intros (pre & f & post & Heq & Hpre & Hf).
        destruct pre as [|p pre]; cbn in Heq; inversion Heq; subst.
        -- congruence.
        -- apply Forall_cons in Hpre as [_ Hpre]. exists pre, f, post. auto.
    + split.
      * intros H. inversion H; subst. exists [], fn, files.
        split; [reflexivity|]. split; [constructor|exact Hparse].
      * intros (pre & f & post & Heq & Hpre & Hf).
        destruct pre as [|p pre]; cbn in Heq; inversion Heq; subst.
        -- congruence.
        -- apply Forall_cons in Hpre as [Hp _]. unfold parsedOk in Hp.
           rewrite Hparse in Hp. discriminate.
Qed.

(** X12.  [parseFiles] returns no error exactly when every file parses;
    otherwise it returns the error of the first file, in the order of
    the list, that does not parse, whatever comes after it. *)
Theorem parseFiles_first_error (files : list string) :
  ((parseFiles files).2 = None <-> Forall (fun fn => parsedOk fn = true) files)
  /\ forall err,
      (parseFiles files).2 = Some err
      <-> exists pre fn post,
          files = pre ++ fn :: post
          /\ Forall (fun f => parsedOk f = true) pre
          /\ parser_ParseFile fn = ParseError err.
Proof.
  unfold parseFiles. rewrite (foldl_parseFile_first files ∅ None).
  split; [apply firstError_None|apply firstError_Some].
Qed.

Lemma foldl_parseFile_named (files : list string)
    (acc : gmap string Package * option error) :
  (forall name pkg,
      acc.1 !! name = Some pkg -> PName pkg = name /\ exists fn, is_Some (Files pkg !! fn)) ->
  forall name pkg,
    (foldl parseFile acc files).1 !! name = Some pkg ->
    PName pkg = name /\ exists fn, is_Some (Files pkg !! fn).
Proof.
  revert acc. induction files as [|fn files IH]; intros acc Hinv; [exact Hinv|].
  cbn [foldl]. apply IH. destruct acc as [pkgs first]. cbn [fst] in Hinv.
  destruct (parser_ParseFile fn) as [src|err] eqn:Hparse.
  - rewrite (parseFile_parsed _ _ _ _ Hparse). cbn [fst]. intros name pkg Hpkg.
    destruct (decide (Name (PkgName src) = name)) as [<-|Hname].
    + rewrite lookup_insert_eq in Hpkg. inversion Hpkg; subst pkg. cbn [PName Files].
      split.
      * destruct (pkgs !! Name (PkgName src)) as [pkg0|] eqn:Hpkg0; cbn; [|reflexivity].
        now apply Hinv.
      * exists fn. rewrite lookup_insert_eq. eauto.
    + rewrite lookup_insert_ne in Hpkg by assumption. now apply Hinv.
  - rewrite (parseFile_failed _ _ _ _ Hparse). exact Hinv.
Qed.

(** X13.  Every package [parseFiles] returns is filed under its own
    name and holds at least one file; each of its files is one of the
    given files, parses, and names this package, so that no file is in
    two packages. *)
Theorem parseFiles_packages (files : list string) (name : string) (pkg : Package) :
  (parseFiles files).1 !! name = Some pkg ->
  PName pkg = name
  /\ (exists fn, is_Some (Files pkg !! fn))
  /\ (forall fn src,
         Files pkg !! fn = Some src ->
         fn ∈ files /\ parser_ParseFile fn = Parsed src /\ Name (PkgName src) = name)
  /\ (forall name' pkg' fn,
         (parseFiles files).1 !! name' = Some pkg' ->
         is_Some (Files pkg !! fn) -> is_Some (Files pkg' !! fn) -> name' = name).
Proof.
  intros Hpkg. destruct (parseFiles_parsedIn files) as [Hin _].
  assert (PName pkg = name /\ exists fn, is_Some (Files pkg !! fn)) as [Hname Hsome].
  { apply (foldl_parseFile_named files (∅, None)); [|exact Hpkg].
    intros name0 pkg0 H0. cbn in H0. rewrite lookup_empty in H0. discriminate. }
  split; [exact Hname|]. split; [exact Hsome|]. split.
  - intros fn src Hfile. destruct (Hin _ _ _ _ Hpkg Hfile) as (? & ? & ?). auto.
  - intros name' pkg' fn Hpkg' [src Hsrc] [src' Hsrc'].
    destruct (Hin _ _ _ _ Hpkg Hsrc) as (Hp & _ & <-).
    destruct (Hin _ _ _ _ Hpkg' Hsrc') as (Hp' & _ & <-).
    congruence.
Qed.


(** ** Finding the files *)

Lemma substring_0_length (s : string) : String.substring 0 (String.length s) s = s.
Proof. induction s as [|c s IH]; [reflexivity|]. cbn. now rewrite IH. Qed.

Lemma substring_app_r (s1 s2 : string) (m : nat) :
  String.substring (String.length s1) m (s1 +:+ s2) = String.substring 0 m s2.
Proof. induction s1 as [|c s1 IH]; [reflexivity|]. exact IH. Qed.

Lemma substring_split (s : string) (i : nat) :
  (i <= String.length s)%nat ->
  s = String.substring 0 i s +:+ String.substring i (String.length s - i) s.
Proof.
  revert i. induction s as [|c s IH]; intros i Hi.
  - cbn in Hi. assert (i = 0%nat) as -> by lia. reflexivity.
  - destruct i as [|i].
    + cbn [String.substring String.length Nat.sub].
      now rewrite substring_0_length.
    + cbn [String.length] in Hi.
      change (String c s = String c (String.substring 0 i s
                                       +:+ String.substring i (String.length s - i) s)).
      f_equal. apply IH. lia.
Qed.

Lemma string_length_append (s1 s2 : string) :
  String.length (s1 +:+ s2) = (String.length s1 + String.length s2)%nat.
Proof.
  induction s1 as [|c s1 IH]; [reflexivity|].
  change (S (String.length (s1 +:+ s2)) = S (String.length s1 + String.length s2)).
  now rewrite IH.
Qed.

Lemma get_Some_lt (s : string) (i : nat) (c : ascii) :
  String.get i s = Some c -> (i < String.length s)%nat.
Proof.
  revert i. induction s as [|c' s IH]; intros i H; [discriminate|].
  destruct i as [|i]; cbn in *; [lia|]. apply IH in H. lia.
Qed.

Lemma ExtLoop_suffix (n : nat) (path : string) :
  ExtLoop n path = EmptyString
  \/ exists i, (i < String.length path)%nat
               /\ ExtLoop n path = String.substring i (String.length path - i) path.
Proof.
  induction n as [|n IH]; [now left|]. cbn [ExtLoop].
  destruct (String.get n path) as [c|] eqn:Hget; [|now left].
  destruct (Ascii.eqb c "/"); [now left|].
  destruct (Ascii.eqb c "."); [|exact IH].
  right. exists n. split; [|reflexivity]. now apply get_Some_lt in Hget.
Qed.

Lemma ExtLoop_unfold (n : nat) (path : string) :
  ExtLoop (S n) path
  = match String.get n path with
    | Some c =>
        if Ascii.eqb c "/" then EmptyString
        else if Ascii.eqb c "." then String.substring n (String.length path - n) path
        else ExtLoop n path
    | None => EmptyString
    end.
Proof. reflexivity. Qed.

Lemma ends_with_go (name : string) :
  (exists stem, name = stem +:+ ".go")
  <-> (3 <= String.length name)%nat
      /\ String.substring (String.length name - 3) 3 name = ".go".
Proof.
  split.
  - intros [stem ->]. rewrite string_length_append. cbn [String.length]. split; [lia|].
    replace (String.length stem + 3 - 3)%nat with (String.length stem) by lia.
    now rewrite substring_app_r.
  - intros [Hlen Hsub]. exists (String.substring 0 (String.length name - 3) name).
    rewrite (substring_split name (String.length name - 3)) at 1 by lia.
    replace (String.length name - (String.length name - 3))%nat with 3%nat by lia.
    now rewrite Hsub.
Qed.

Lemma Ext_go (path : string) : Ext path = ".go" <-> exists stem, path = stem +:+ ".go".
Proof.
  split.
  - unfold Ext. intros Hext.
    destruct (ExtLoop_suffix (String.length path) path) as [Hnil|(i & Hi & Hsuf)];
      [congruence|].
    exists (String.substring 0 i path).
    rewrite (substring_split path i) at 1 by lia. now rewrite <- Hsuf, Hext.
  - intros [stem ->]. unfold Ext.
    assert (String.get (2 + String.length stem) (stem +:+ ".go") = Some "o"%char) as H2
      by (now rewrite <- String.append_correct2).
    assert (String.get (1 + String.length stem) (stem +:+ ".go") = Some "g"%char) as H1
      by (now rewrite <- String.append_correct2).
    assert (String.get (0 + String.length stem) (stem +:+ ".go") = Some "."%char) as H0
      by (now rewrite <- String.append_correct2).
    rewrite string_length_append. cbn [String.length].
    replace (String.length stem + 3)%nat with (S (2 + String.length stem)) by lia.
    rewrite ExtLoop_unfold, H2. cbn [Ascii.eqb Bool.eqb andb].
    change (2 + String.length stem)%nat with (S (1 + String.length stem)).
    rewrite ExtLoop_unfold, H1. cbn [Ascii.eqb Bool.eqb andb].
    change (1 + String.length stem)%nat with (S (0 + String.length stem)).
    rewrite ExtLoop_unfold, H0. cbn [Ascii.eqb Bool.eqb andb Nat.add].
    rewrite string_length_append. cbn [String.length].
    replace (String.length stem + 3 - String.length stem)%nat with 3%nat by lia.
    now rewrite substring_app_r.
Qed.

Lemma HasSuffix_go (name : string) :
  HasSuffix name ".go" = true <-> exists stem, name = stem +:+ ".go".
Proof.
  rewrite ends_with_go. unfold HasSuffix. cbn [String.length].
  rewrite andb_true_iff, Nat.leb_le, String.eqb_eq. reflexivity.
Qed.

(** X14.  The two tests for a Go file accept the same names: the
    extension of an argument is [.go], and the base name of a walked
    file has the suffix [.go], exactly when the name ends with [.go]. *)
Theorem go_file_tests_agree (name : string) :
  (String.eqb (Ext name) ".go" = true <-> exists stem, name = stem +:+ ".go")
  /\ (HasSuffix name ".go" = true <-> exists stem, name = stem +:+ ".go")
  /\ String.eqb (Ext name) ".go" = HasSuffix name ".go".
Proof.
  assert (String.eqb (Ext name) ".go" = true <-> exists stem, name = stem +:+ ".go")
    as HExt by (rewrite String.eqb_eq; apply Ext_go).
  split; [exact HExt|]. split; [apply HasSuffix_go|].
  apply eq_true_iff_eq. now rewrite HExt, HasSuffix_go.
Qed.


Lemma walker_appendOnly :
  appendOnly (fun (entry : string * option FileInfo) files => walker entry.1 entry.2 files).
Proof.
  intros [path [fi|]] files; cbn; [|reflexivity].
  destruct ((Z.land (fiMode fi) FileMode.ModeType =? 0) && HasSuffix (fiName fi) ".go");
    [reflexivity|]. now rewrite app_nil_r.
Qed.

Lemma walk_None (entries : list (string * option FileInfo)) (files : list string) :
  forEach (fun entry files => walker entry.1 entry.2 files) entries files = None
  <-> Exists (fun entry => entry.2 = None) entries.
Proof.
  rewrite (forEach_None _ _ _ walker_appendOnly), !Exists_exists.
  split; intros ([path [fi|]] & Hin & H); try discriminate; exists (path, None); auto.
Qed.

Lemma walk_Some (entries : list (string * option FileInfo)) (files out : list string) :
  forEach (fun entry files => walker entry.1 entry.2 files) entries files = Some out ->
  out = files ++ (filter (fun entry => goFileEntry entry = true) entries).*1.
Proof.
  revert files. induction entries as [|[path fi] entries IH]; intros files H.
  - inversion H. now rewrite app_nil_r.
  - cbn [forEach] in H. destruct fi as [fi|]; cbn -[HasSuffix] in H; [|discriminate].
    apply IH in H. subst out. unfold goFileEntry at 2. cbn [snd].
    destruct ((Z.land (fiMode fi) FileMode.ModeType =? 0) && HasSuffix (fiName fi) ".go")
      eqn:Hgo.
    + rewrite filter_cons_True by (unfold goFileEntry; cbn [snd]; exact Hgo).
      cbn [fmap list_fmap fst]. now rewrite <- app_assoc.
    + rewrite filter_cons_False; [reflexivity|].
      unfold goFileEntry. cbn [snd]. rewrite Hgo. discriminate.
Qed.

(** The body of the first loop of [parseFiles]. *)
Lemma expandStep (env : FileSystem) (recurseSubdirs : bool) (fn : string)
    (files : list string) :
  match os_Stat env fn with
  | None => Some files
  | Some fi =>
      let files :=
        if FileMode.IsRegular (fiMode fi) && String.eqb (Ext fn) ".go"
        then files ++ [fn]
        else files in
      if recurseSubdirs && FileMode.IsDir (fiMode fi)
      then forEach (fun entry files => walker entry.1 entry.2 files)
                   (filepath_Walk env (fiName fi)) files
      else Some files
  end
  = match walkRoot env recurseSubdirs fn with
    | Some root =>
        forEach (fun entry files => walker entry.1 entry.2 files)
                (filepath_Walk env root) (files ++ if goFileArg env fn then [fn] else [])
    | None => Some (files ++ if goFileArg env fn then [fn] else [])
    end.
Proof.
  unfold walkRoot, goFileArg. destruct (os_Stat env fn) as [fi|]; [|now rewrite app_nil_r].
  cbn zeta.
  destruct (FileMode.IsRegular (fiMode fi) && String.eqb (Ext fn) ".go"),
    (recurseSubdirs && FileMode.IsDir (fiMode fi));
    rewrite ?app_nil_r; reflexivity.
Qed.

Lemma expandStep_appendOnly (env : FileSystem) (recurseSubdirs : bool) :
  appendOnly (fun fn files =>
                match os_Stat env fn with
                | None => Some files
                | Some fi =>
                    let files :=
                      if FileMode.IsRegular (fiMode fi) && String.eqb (Ext fn) ".go"
                      then files ++ [fn]
                      else files in
                    if recurseSubdirs && FileMode.IsDir (fiMode fi)
                    then forEach (fun entry files => walker entry.1 entry.2 files)
                                 (filepath_Walk env (fiName fi)) files
                    else Some files
                end).
Proof.
  intros fn files. rewrite !expandStep.
  destruct (walkRoot env recurseSubdirs fn) as [root|]; [|reflexivity].
  rewrite (forEach_frame _ _ (files ++ _) walker_appendOnly).
  rewrite (forEach_frame _ _ ([] ++ _) walker_appendOnly).
  destruct (forEach _ (filepath_Walk env root) []) as [out|]; [|reflexivity].
  cbn. now rewrite app_assoc.
Qed.

Lemma expandStep_None (env : FileSystem) (recurseSubdirs : bool) (fn : string) :
  match walkRoot env recurseSubdirs fn with
  | Some root =>
      forEach (fun entry files => walker entry.1 entry.2 files)
              (filepath_Walk env root) ([] ++ if goFileArg env fn then [fn] else [])
  | None => Some ([] ++ if goFileArg env fn then [fn] else [])
  end = None
  <-> exists root,
      walkRoot env recurseSubdirs fn = Some root
      /\ Exists (fun entry => entry.2 = None) (filepath_Walk env root).
Proof.
  destruct (walkRoot env recurseSubdirs fn) as [root|].
  - rewrite walk_None. split; [eauto|]. intros (root' & Heq & H). now inversion Heq; subst.
  - split; [discriminate|]. intros (root & Heq & _). discriminate.
Qed.

Lemma expandStep_Some (env : FileSystem) (recurseSubdirs : bool) (fn : string)
    (out : list string) :
  match walkRoot env recurseSubdirs fn with
  | Some root =>
      forEach (fun entry files => walker entry.1 entry.2 files)
              (filepath_Walk env root) ([] ++ if goFileArg env fn then [fn] else [])
  | None => Some ([] ++ if goFileArg env fn then [fn] else [])
  end = Some out ->
  out = argFiles env recurseSubdirs fn.
Proof.
  unfold argFiles. destruct (walkRoot env recurseSubdirs fn) as [root|].
  - intros H. now apply walk_Some in H.
  - intros H. inversion H. now rewrite app_nil_r.
Qed.

Lemma forEach_Some_concat {A : Type} (f : A -> list string -> option (list string))
    (c : A -> list string) (l : list A) (tags out : list string) :
  appendOnly f ->
  (forall x added, f x [] = Some added -> added = c x) ->
  forEach f l tags = Some out ->
  out = tags ++ concat (map c l).
Proof.
  intros Hf Hc. revert tags. induction l as [|x l IH]; intros tags H.
  - inversion H. cbn. now rewrite app_nil_r.
  - cbn [forEach] in H. rewrite (Hf x tags) in H.
    destruct (f x []) as [added|] eqn:Hx; cbn in H; [|discriminate].
    apply IH in H. subst out. rewrite (Hc x added Hx). cbn [map concat].
    now rewrite app_assoc.
Qed.

(** X15.  Without [-recurse] the first loop of [parseFiles] never fails
    and never walks: it adds to [files], in the order of the command
    line, the arguments that can be examined, are regular files and
    have the extension [.go]; the other arguments, directories among
    them, are passed over in silence. *)
Theorem expandSubdirs_without_recursion (env : FileSystem) (args files : list string) :
  expandSubdirs env false args files
  = Some (files ++ filter (fun fn => goFileArg env fn = true) args).
Proof.
  unfold expandSubdirs. revert files.
  induction args as [|fn args IH]; intros files; cbn [forEach].
  - now rewrite app_nil_r.
  - rewrite expandStep. unfold walkRoot.
    assert (match os_Stat env fn with
            | Some fi => if false && FileMode.IsDir (fiMode fi) then Some (fiName fi) else None
            | None => None
            end = None) as -> by now destruct (os_Stat env fn).
    cbn [mbind option_bind]. rewrite IH.
    destruct (goFileArg env fn) eqn:Hgo.
    + rewrite filter_cons_True by exact Hgo. now rewrite <- app_assoc.
    + rewrite filter_cons_False by (rewrite Hgo; discriminate). now rewrite app_nil_r.
Qed.

(** X16.  The first loop of [parseFiles] panics exactly when, with
    [-recurse], the walk of the base name of a directory argument meets
    an entry without [FileInfo], as it does when that base name cannot
    be examined from the working directory. *)
Theorem expandSubdirs_panics_iff (env : FileSystem) (recurseSubdirs : bool)
    (args files : list string) :
  expandSubdirs env recurseSubdirs args files = None
  <-> exists fn root,
      fn ∈ args /\ walkRoot env recurseSubdirs fn = Some root
      /\ Exists (fun entry => entry.2 = None) (filepath_Walk env root).
Proof.
  unfold expandSubdirs.
  rewrite (forEach_None _ _ _ (expandStep_appendOnly env recurseSubdirs)), Exists_exists.
  split.
  - intros (fn & Hfn & Hnone). rewrite expandStep in Hnone.
    apply expandStep_None in Hnone as (root & Hroot & Hbad). eauto.
  - intros (fn & root & Hfn & Hroot & Hbad). exists fn. split; [exact Hfn|].
    rewrite expandStep. apply expandStep_None. eauto.
Qed.

(** X17.  When the first loop of [parseFiles] returns, it has added to
    [files], argument after argument: the argument itself when it is a
    regular file with the extension [.go]; then, with [-recurse] and for
    a directory, the paths of the walk of its base name whose entry is a
    regular file with a name that ends with [.go], in the order of the
    walk. *)
Theorem expandSubdirs_files (env : FileSystem) (recurseSubdirs : bool)
    (args files out : list string) :
  expandSubdirs env recurseSubdirs args files = Some out ->
  out = files ++ concat (map (argFiles env recurseSubdirs) args).
Proof.
  unfold expandSubdirs.
  apply (forEach_Some_concat _ _ _ _ _ (expandStep_appendOnly env recurseSubdirs)).
  intros fn added Hstep. rewrite expandStep in Hstep. now apply expandStep_Some in Hstep.
Qed.


Lemma IsDir_not_regular (m : Z) : FileMode.IsDir m = true -> FileMode.IsRegular m = false.
Proof.
  unfold FileMode.IsDir, FileMode.IsRegular, FileMode.ModeType.
  intros Hdir. apply negb_true_iff, Z.eqb_neq in Hdir. apply Z.eqb_neq.
  rewrite Z.land_lor_distr_r. intros Hzero. apply Z.lor_eq_0_iff in Hzero as [Hzero _].
  now apply Hdir.
Qed.

(** X18.  With [-recurse], a directory argument is not added to [files]
    itself, and the tree that is walked is the one named by the base
    name of the directory, not by the argument: two directory arguments
    with the same base name add the same paths. *)
Theorem recursion_walks_base_name (env : FileSystem) (fn fn' : string)
    (fi fi' : FileInfo) (files : list string) :
  os_Stat env fn = Some fi -> FileMode.IsDir (fiMode fi) = true ->
  os_Stat env fn' = Some fi' -> FileMode.IsDir (fiMode fi') = true ->
  fiName fi = fiName fi' ->
  expandSubdirs env true [fn] files
  = forEach (fun entry files => walker entry.1 entry.2 files)
            (filepath_Walk env (fiName fi)) files
  /\ expandSubdirs env true [fn] files = expandSubdirs env true [fn'] files.
Proof.
  intros Hstat Hdir Hstat' Hdir' Hname.
  assert (forall f i, os_Stat env f = Some i -> FileMode.IsDir (fiMode i) = true ->
            expandSubdirs env true [f] files
            = forEach (fun entry files => walker entry.1 entry.2 files)
                      (filepath_Walk env (fiName i)) files) as Hwalk.
  { intros f i Hf Hi. unfold expandSubdirs. cbn [forEach]. rewrite Hf. cbn zeta.
    rewrite (IsDir_not_regular _ Hi), Hi. cbn [andb].
    now destruct (forEach _ (filepath_Walk env (fiName i)) files). }
  split; [now apply Hwalk|].
  rewrite (Hwalk fn fi Hstat Hdir), (Hwalk fn' fi' Hstat' Hdir'). now rewrite Hname.
Qed.

Lemma forEach_elem {A : Type} (f : A -> list string -> option (list string))
    (l : list A) (out : list string) (z : string) :
  appendOnly f ->
  forEach f l [] = Some out ->
  z ∈ out <-> exists x added, x ∈ l /\ f x [] = Some added /\ z ∈ added.
Proof.
  intros Hf. revert out. induction l as [|x l IH]; intros out H.
  - inversion H. split; [intros Hz; now apply elem_of_nil in Hz|].
    intros (x & added & Hx & _). now apply elem_of_nil in Hx.
  - cbn [forEach] in H. destruct (f x []) as [added|] eqn:Hx; cbn in H; [|discriminate].
    rewrite (forEach_frame f l added Hf) in H.
    destruct (forEach f l []) as [rest|]; cbn in H; [|discriminate].
    inversion H; subst out. rewrite elem_of_app, (IH rest eq_refl). split.
    + intros [Hz|(y & added' & Hy & Hfy & Hz)].
      * exists x, added. split; [now left|]. now split.
      * exists y, added'. split; [now right|]. now split.
    + intros (y & added' & Hy & Hfy & Hz). apply elem_of_cons in Hy as [->|Hy].
      * left. congruence.
      * right. eauto.
Qed.

(** X19.  What the program prints depends on its arguments only through
    their set: repeating an argument or giving the arguments in another
    order changes nothing, with or without [-recurse], and whatever the
    orders in which the maps are ranged over. *)
Theorem taggo_depends_on_argument_set (env : FileSystem) (recurseSubdirs : bool)
    (o o' : RangeOrder) (args args' : list string) :
  validOrder o -> validOrder o' ->
  (forall fn, fn ∈ args <-> fn ∈ args') ->
  taggo env recurseSubdirs o args = taggo env recurseSubdirs o' args'.
Proof.
  intros Ho Ho' Hset. unfold taggo, expandSubdirs.
  pose proof (expandStep_appendOnly env recurseSubdirs) as Hf.
  set (f := fun fn files =>
              match os_Stat env fn with
              | None => Some files
              | Some fi =>
                  let files :=
                    if FileMode.IsRegular (fiMode fi) && String.eqb (Ext fn) ".go"
                    then files ++ [fn]
                    else files in
                  if recurseSubdirs && FileMode.IsDir (fiMode fi)
                  then forEach (fun entry files => walker entry.1 entry.2 files)
                               (filepath_Walk env (fiName fi)) files
                  else Some files
              end) in *.
  assert (forEach f args [] = None <-> forEach f args' [] = None) as Hnone.
  { rewrite !(forEach_None f _ _ Hf), !Exists_exists.
    split; intros (fn & Hfn & H); exists fn; (split; [now apply Hset|exact H]). }
  destruct (forEach f args []) as [files|] eqn:Hfiles,
           (forEach f args' []) as [files'|] eqn:Hfiles'; cbn.
  - apply (main_depends_on_file_set_aux o o' files files' Ho Ho'). intros z.
    rewrite (forEach_elem f args files z Hf Hfiles).
    rewrite (forEach_elem f args' files' z Hf Hfiles').
    split; intros (fn & added & Hfn & H); exists fn, added;
      (split; [now apply Hset|exact H]).
  - destruct Hnone as [_ Hnone]. now specialize (Hnone eq_refl).
  - destruct Hnone as [Hnone _]. now specialize (Hnone eq_refl).
  - reflexivity.
Qed.


(** X20.  When a run completes, it prints as many tag lines as the files
    that parse declare symbols, each file counted once. *)
Theorem sortedTags_count (o : RangeOrder) (files : list string) (tags : list string) :
  validOrder o ->
  sortedTags o files = Some tags ->
  exists visited : list (string * File),
    NoDup visited
    /\ (forall fn src,
           (fn, src) ∈ visited <-> fn ∈ files /\ parser_ParseFile fn = Parsed src)
    /\ length tags
       = sum_list (map (fun file : string * File =>
                          sum_list (map declSymbols (Decls file.2))) visited).
Proof.
  intros Ho Hsorted. rewrite sortedTags_collectTags, collectTags_visitedFiles in Hsorted.
  exists (visitedFiles o (parseFiles files).1). split; [|split].
  - apply (NoDup_visitedFiles o _ files Ho), parseFiles_parsedIn.
  - intros fn src. now apply elem_of_visitedFiles_parsed.
  - destruct (forEach (fun (file : string * File) tags => handleDecls (Decls file.2) tags)
                (visitedFiles o (parseFiles files).1) []) as [collected|] eqn:Hrun;
      cbn in Hsorted; [|discriminate].
    inversion Hsorted; subst tags.
    rewrite (Permutation_length (sort_Strings_Permutation collected)).
    change (length collected
            = (length (@nil string)
               + sum_list (map (fun file : string * File =>
                                  sum_list (map declSymbols (Decls file.2)))
                               (visitedFiles o (parseFiles files).1)))%nat).
    revert Hrun. generalize (@nil string). clear Hsorted.
    induction (visitedFiles o (parseFiles files).1) as [|file l IH]; intros start Hrun.
    + inversion Hrun. cbn. lia.
    + cbn [forEach] in Hrun.
      destruct (handleDecls (Decls file.2) start) as [next|] eqn:Hfile; cbn in Hrun;
        [|discriminate].
      rewrite (IH next Hrun), (handleDecls_length _ _ _ Hfile). cbn. lia.
Qed.

(** The first loop of [parseFiles] either panics in [walker], or leaves
    in [files] what the arguments add, in the order of the arguments. *)
Lemma expandSubdirs_result (env : FileSystem) (recurseSubdirs : bool) (args : list string) :
  (expandSubdirs env recurseSubdirs args [] = None
   /\ exists fn root,
       fn ∈ args /\ walkRoot env recurseSubdirs fn = Some root
       /\ Exists (fun entry => entry.2 = None) (filepath_Walk env root))
  \/ (expandSubdirs env recurseSubdirs args []
      = Some (concat (map (argFiles env recurseSubdirs) args))
      /\ ~ exists fn root,
           fn ∈ args /\ walkRoot env recurseSubdirs fn = Some root
           /\ Exists (fun entry => entry.2 = None) (filepath_Walk env root)).
Proof.
  unfold expandSubdirs.
  destruct (forEach _ args []) as [out|] eqn:Hrun.
  - right. split.
    + f_equal.
      apply (forEach_Some_concat _ (argFiles env recurseSubdirs) _ _ _
               (expandStep_appendOnly env recurseSubdirs)) in Hrun.
      * exact Hrun.
      * intros fn added Hstep. rewrite expandStep in Hstep. now apply expandStep_Some in Hstep.
    + intros (fn & root & Hfn & Hroot & Hbad).
      enough (Some out = None) by discriminate. rewrite <- Hrun.
      apply (forEach_None _ _ _ (expandStep_appendOnly env recurseSubdirs)), Exists_exists.
      exists fn. split; [exact Hfn|]. rewrite expandStep. apply expandStep_None. eauto.
  - left. split; [reflexivity|].
    apply (forEach_None _ _ _ (expandStep_appendOnly env recurseSubdirs)), Exists_exists in Hrun.
    destruct Hrun as (fn & Hfn & Hnone). rewrite expandStep in Hnone.
    apply expandStep_None in Hnone as (root & Hroot & Hbad). eauto.
Qed.

Lemma elem_of_concat_map {A B : Type} (f : A -> list B) (l : list A) (y : B) :
  y ∈ concat (map f l) <-> exists x, x ∈ l /\ y ∈ f x.
Proof.
  rewrite list_elem_of_In, in_concat. split.
  - intros (ys & Hys & Hy). apply in_map_iff in Hys as (x & <- & Hx).
    exists x. now rewrite !list_elem_of_In.
  - intros (x & Hx & Hy). exists (f x). rewrite in_map_iff. split.
    + exists x. split; [reflexivity|]. now apply list_elem_of_In.
    + now apply list_elem_of_In.
Qed.

(** X10.  The whole run, from the command-line arguments on, panics in
    exactly two cases, and prints nothing then: with [-recurse], when
    the walk started for a directory argument calls [walker] without a
    [FileInfo]; or when one of the files found for the arguments parses
    and declares a method with an empty receiver list.  On all other
    inputs the run prints its output. *)
Theorem taggo_panics_iff (env : FileSystem) (recurseSubdirs : bool) (o : RangeOrder)
    (args : list string) :
  validOrder o ->
  taggo env recurseSubdirs o args = None
  <-> (exists fn root,
          fn ∈ args /\ walkRoot env recurseSubdirs fn = Some root
          /\ Exists (fun entry => entry.2 = None) (filepath_Walk env root))
      \/ (exists arg fn src,
             arg ∈ args /\ fn ∈ argFiles env recurseSubdirs arg
             /\ parser_ParseFile fn = Parsed src
             /\ Exists (fun d => emptyReceiver d = true) (Decls src)).
Proof.
  intros Ho. unfold taggo.
  destruct (expandSubdirs_result env recurseSubdirs args) as [[-> Hbad]|[-> Hok]];
    cbn [mbind option_bind].
  - split; [intros _; left; exact Hbad|reflexivity].
  - rewrite (main_None_iff o _ Ho). split.
    + intros (fn & src & Hfn & Hparse & Hrecv). right.
      apply elem_of_concat_map in Hfn as (arg & Harg & Hfn).
      exists arg, fn, src. auto.
    + intros [Hbad|(arg & fn & src & Harg & Hfn & Hparse & Hrecv)]; [contradiction|].
      exists fn, src. split; [|split; assumption].
      apply elem_of_concat_map. eauto.
Qed.


End Program.

(** * The program on the example tree *)

Lemma forwardOrder_valid : validOrder forwardOrder.
Proof. split; intros m; reflexivity. Qed.

Lemma backwardOrder_valid : validOrder backwardOrder.
Proof. split; intros m; apply reverse_Permutation. Qed.

Example main_example :
  main examplePosition exampleOpen exampleParser forwardOrder exampleFiles
  = Some (unlines (headerLines ++ exampleTags)).
Proof. vm_compute. reflexivity. Qed.

Example typeName_nested_selectors :
  typeName (StarExpr 1 (selectorChain (ident "a" 1) [ident "b" 1; ident "c" 1; ident "d" 1]))
  = "a.b.c.d".
Proof. reflexivity. Qed.


(** C4, where the code misses it.  The last line of [abc.go] and of
    [point.go] has no newline after it; the resolver returns it without
    its last byte, where the line itself is expected.  A line that ends
    with a newline (line 2 of [point.go]) is returned as expected. *)
Theorem contentOfLine_unterminated_line_truncated :
  contentOfLine exampleOpen 1 "abc.go" = list_byte_of_string "ab"
  /\ contentOfLine exampleOpen 1 "abc.go" <> list_byte_of_string "abc"
  /\ contentOfLine exampleOpen 3 "point.go"
     = list_byte_of_string "func (p *Point) String() string { return name "
  /\ contentOfLine exampleOpen 2 "point.go"
     = list_byte_of_string "type Point struct { X int; Y int }".
Proof. repeat split; try (vm_compute; reflexivity). vm_compute. discriminate. Qed.

Lemma unresolved_line_empty_pattern_witness :
  (GoInt.in_range 7 /\ exampleOpen "gone.go" = None
   /\ contentOfLine exampleOpen 7 "gone.go" = []
   /\ emitTag examplePosition exampleOpen "Vanished" 2007 FUNC EmptyString []
      = ["Vanished" +:+ str TAB +:+ "gone.go" +:+ str TAB +:+ "/^$/;" +:+ str DQUOTE
         +:+ str TAB +:+ str FUNC +:+ str TAB +:+ EmptyString])
  /\ (GoInt.in_range 9 /\ Z.of_nat (lineCount pointSource) < 9
      /\ contentOfLine exampleOpen 9 "point.go" = []
      /\ scanLines 9 pointSource 1 9 = Some []).
Proof.
  assert (GoInt.in_range 7) as H7 by (unfold GoInt.in_range, GoInt.min_int, GoInt.max_int; lia).
  assert (GoInt.in_range 9) as H9 by (unfold GoInt.in_range, GoInt.min_int, GoInt.max_int; lia).
  assert (Z.of_nat (lineCount pointSource) < 9) as Hcount by (vm_compute; reflexivity).
  split.
  - destruct (unresolved_line_empty_pattern examplePosition exampleOpen 7 "gone.go" H7
                (or_introl eq_refl)) as (Hempty & Hemit & _).
    split; [exact H7|]. split; [reflexivity|]. split; [exact Hempty|].
    apply (Hemit "Vanished" 2007 FUNC EmptyString []). reflexivity.
  - destruct (unresolved_line_empty_pattern examplePosition exampleOpen 9 "point.go" H9
                (or_intror (ex_intro _ pointSource (conj eq_refl Hcount))))
      as (Hempty & _ & Hloop).
    split; [exact H9|]. split; [exact Hcount|]. split; [exact Hempty|].
    apply (Hloop pointSource eq_refl).
Defined.

Lemma scanLines_iterations_witness :
  GoInt.in_range 2
  /\ (exists cl, scanLines 2 pointSource 1 2 = Some cl)
  /\ GoInt.in_range 0
  /\ (forall fuel, Z.of_nat fuel <= GoInt.max_int -> scanLines fuel pointSource 1 0 = None).
Proof.
  assert (GoInt.in_range 2) as H2 by (unfold GoInt.in_range, GoInt.min_int, GoInt.max_int; lia).
  assert (GoInt.in_range 0) as H0 by (unfold GoInt.in_range, GoInt.min_int, GoInt.max_int; lia).
  split; [exact H2|]. split.
  - apply (proj1 (scanLines_iterations examplePosition exampleOpen pointSource 2 H2)). lia.
  - split; [exact H0|].
    apply (proj1 (proj2 (scanLines_iterations examplePosition exampleOpen pointSource 0 H0))).
    lia.
Defined.

(** C10 as stated does not hold for [n <= 0]: the counter wraps around,
    an exit condition holds and the loop returns.  On the empty file,
    with line 0, it returns the empty slice. *)
Lemma scanLines_line_zero_returns :
  ~ (forall fuel, scanLines fuel [] 1 0 = None)
  /\ exists fuel, scanLines fuel [] 1 0 = Some [].
Proof.
  assert (GoInt.in_range 0) as H0 by (unfold GoInt.in_range, GoInt.min_int, GoInt.max_int; lia).
  destruct (scanLines_scanBound [] 0 H0) as [cl Hcl].
  split.
  - intros Hnever. rewrite Hnever in Hcl. discriminate.
  - exists (scanBound 0). rewrite Hcl. f_equal.
    apply (scanLines_empty_file (scanBound 0) 1 0 cl Hcl).
Qed.

Lemma tag_lines_sorted_witness :
  sortedTags examplePosition exampleOpen exampleParser forwardOrder exampleFiles
  = Some exampleTags
  /\ main examplePosition exampleOpen exampleParser forwardOrder exampleFiles
     = Some (unlines (headerLines ++ exampleTags))
  /\ (forall (i j : nat) (a b : string),
         (i < j)%nat -> exampleTags !! i = Some a -> exampleTags !! j = Some b ->
         String.leb a b = true)
  /\ (Forall (fun t => contains NL t = false) exampleTags ->
      outputLines (unlines (headerLines ++ exampleTags)) = headerLines ++ exampleTags).
Proof.
  assert (sortedTags examplePosition exampleOpen exampleParser forwardOrder exampleFiles
          = Some exampleTags) as Hsorted by (vm_compute; reflexivity).
  split; [exact Hsorted|].
  exact (tag_lines_sorted examplePosition exampleOpen exampleParser forwardOrder
           exampleFiles exampleTags Hsorted).
Defined.

Lemma main_deterministic_witness :
  validOrder forwardOrder /\ validOrder backwardOrder
  /\ main examplePosition exampleOpen exampleParser forwardOrder exampleFiles
     = main examplePosition exampleOpen exampleParser backwardOrder exampleFiles.
Proof.
  assert (validOrder forwardOrder) as Hforward by (split; intros m; reflexivity).
  assert (validOrder backwardOrder) as Hbackward
    by (split; intros m; apply reverse_Permutation).
  split; [exact Hforward|]. split; [exact Hbackward|].
  exact (main_deterministic examplePosition exampleOpen exampleParser
           forwardOrder backwardOrder exampleFiles Hforward Hbackward).
Defined.

Example backwardOrder_collects_in_another_order :
  collectTags examplePosition exampleOpen forwardOrder
    (parseFiles exampleParser exampleFiles).1 []
  <> collectTags examplePosition exampleOpen backwardOrder
       (parseFiles exampleParser exampleFiles).1 [].
Proof. vm_compute. discriminate. Qed.

Lemma parse_failures_skipped_witness :
  validOrder forwardOrder
  /\ exampleParser "broken.go" = ParseError "expected declaration"
  /\ (forall name pkg,
         (parseFiles exampleParser exampleFiles).1 !! name = Some pkg ->
         Files pkg !! "broken.go" = None)
  /\ (parseFiles exampleParser exampleFiles).2 = firstError exampleParser exampleFiles
  /\ main examplePosition exampleOpen exampleParser forwardOrder exampleFiles
     = main examplePosition exampleOpen exampleParser forwardOrder
         (filter (fun fn => parsedOk exampleParser fn = true) exampleFiles).
Proof.
  assert (validOrder forwardOrder) as Hforward by (split; intros m; reflexivity).
  destruct (parse_failures_skipped examplePosition exampleOpen exampleParser
              forwardOrder exampleFiles Hforward)
    as (Hskip & _ & _ & Hfirst & Hmain).
  split; [exact Hforward|]. split; [reflexivity|]. split; [|split; assumption].
  intros name pkg. apply (Hskip "broken.go" "expected declaration"). reflexivity.
Defined.

(** C8 as stated does not hold where it says that the failure is
    reported: [parseFiles] returns the failure of [broken.go], and the
    run prints what it prints when it is given no file at all, the five
    header lines. *)
Lemma parse_failure_not_reported :
  (parseFiles exampleParser ["broken.go"]).2 = Some "expected declaration"
  /\ main examplePosition exampleOpen exampleParser forwardOrder ["broken.go"]
     = main examplePosition exampleOpen exampleParser forwardOrder []
  /\ main examplePosition exampleOpen exampleParser forwardOrder ["broken.go"]
     = Some (unlines headerLines).
Proof. repeat split; vm_compute; reflexivity. Qed.

Lemma no_valid_file_header_only_witness :
  validOrder backwardOrder
  /\ (forall fn, fn ∈ ["broken.go"; "missing.go"] -> parsedOk exampleParser fn = false)
  /\ main examplePosition exampleOpen exampleParser backwardOrder
       ["broken.go"; "missing.go"]
     = Some (TAG_FILE_FORMAT +:+ str NL +:+ TAG_FILE_SORTED +:+ str NL
             +:+ TAG_PROGRAM_AUTHOR +:+ str NL +:+ TAG_PROGRAM_NAME +:+ str NL
             +:+ TAG_PROGRAM_URL +:+ str NL).
Proof.
  assert (validOrder backwardOrder) as Hbackward
    by (split; intros m; apply reverse_Permutation).
  assert (forall fn, fn ∈ ["broken.go"; "missing.go"] -> parsedOk exampleParser fn = false)
    as Hfail.
  { intros fn Hfn. apply elem_of_cons in Hfn as [->|Hfn]; [reflexivity|].
    apply elem_of_cons in Hfn as [->|Hfn]; [reflexivity|].
    now apply elem_of_nil in Hfn. }
  split; [exact Hbackward|]. split; [exact Hfail|].
  apply (no_valid_file_header_only examplePosition exampleOpen exampleParser
           backwardOrder ["broken.go"; "missing.go"] Hbackward Hfail).
Defined.

(** * More of the program on the example tree *)

Lemma handleDecls_tag_count_witness :
  exists tags',
    handleDecls examplePosition exampleOpen (Decls pointFile) [] = Some tags'
    /\ length tags' = 4%nat.
Proof.
  destruct (handleDecls examplePosition exampleOpen (Decls pointFile) []) as [tags'|] eqn:H;
    [|vm_compute in H; discriminate].
  exists tags'. split; [reflexivity|].
  exact (handleDecls_tag_count examplePosition exampleOpen (Decls pointFile) [] tags' H).
Defined.

Lemma contentOfLine_terminated_line_witness :
  exampleOpen "point.go"
  = Some (terminated [list_byte_of_string "package geom"]
          ++ list_byte_of_string "type Point struct { X int; Y int }"
          ++ newline :: list_byte_of_string "func (p *Point) String() string { return name }")
  /\ contentOfLine exampleOpen 2 "point.go"
     = list_byte_of_string "type Point struct { X int; Y int }".
Proof.
  assert (exampleOpen "point.go"
          = Some (terminated [list_byte_of_string "package geom"]
                  ++ list_byte_of_string "type Point struct { X int; Y int }"
                  ++ newline
                     :: list_byte_of_string "func (p *Point) String() string { return name }"))
    as Hopen by (vm_compute; reflexivity).
  split; [exact Hopen|].
  apply (contentOfLine_terminated_line exampleOpen "point.go"
           [list_byte_of_string "package geom"]
           (list_byte_of_string "type Point struct { X int; Y int }")
           (list_byte_of_string "func (p *Point) String() string { return name }") Hopen).
  - constructor; [no_newline|constructor].
  - no_newline.
  - vm_compute. reflexivity.
Defined.

Lemma contentOfLine_unterminated_line_witness :
  exampleOpen "abc.go" = Some (terminated [] ++ list_byte_of_string "ab" ++ [x63])
  /\ contentOfLine exampleOpen 1 "abc.go" = list_byte_of_string "ab".
Proof.
  assert (exampleOpen "abc.go" = Some (terminated [] ++ list_byte_of_string "ab" ++ [x63]))
    as Hopen by (vm_compute; reflexivity).
  split; [exact Hopen|].
  apply (contentOfLine_unterminated_line exampleOpen "abc.go" []
           (list_byte_of_string "ab") x63 Hopen).
  - constructor.
  - no_newline.
  - vm_compute. reflexivity.
Defined.

Lemma emitTag_single_line_witness :
  exists line,
    emitTag examplePosition exampleOpen "String" 3 FUNC "class:Point" [] = [] ++ [line]
    /\ contains NL line = false.
Proof.
  apply (emitTag_single_line examplePosition exampleOpen "String" 3 FUNC "class:Point" []);
    try reflexivity.
  discriminate.
Defined.

Lemma sortedTags_of_parsed_files_witness :
  validOrder forwardOrder
  /\ sortedTags examplePosition exampleOpen exampleParser forwardOrder exampleFiles
     = Some exampleTags
  /\ exists perFile : list (list string),
      exampleTags ≡ₚ concat perFile
      /\ length exampleTags = sum_list (map length perFile).
Proof.
  assert (validOrder forwardOrder) as Hforward by (split; intros m; reflexivity).
  assert (sortedTags examplePosition exampleOpen exampleParser forwardOrder exampleFiles
          = Some exampleTags) as Hsorted by (vm_compute; reflexivity).
  split; [exact Hforward|]. split; [exact Hsorted|].
  destruct (sortedTags_of_parsed_files examplePosition exampleOpen exampleParser
              forwardOrder exampleFiles exampleTags Hforward Hsorted)
    as (visited & perFile & _ & _ & _ & Hperm & Hlen).
  exists perFile. split; assumption.
Defined.


Lemma main_depends_on_file_set_witness :
  validOrder forwardOrder /\ validOrder backwardOrder
  /\ (forall fn, fn ∈ exampleFiles <-> fn ∈ "gone.go" :: reverse exampleFiles)
  /\ main examplePosition exampleOpen exampleParser forwardOrder exampleFiles
     = main examplePosition exampleOpen exampleParser backwardOrder
         ("gone.go" :: reverse exampleFiles).
Proof.
  assert (validOrder forwardOrder) as Hforward by (split; intros m; reflexivity).
  assert (validOrder backwardOrder) as Hbackward
    by (split; intros m; apply reverse_Permutation).
  assert (forall fn, fn ∈ exampleFiles <-> fn ∈ "gone.go" :: reverse exampleFiles) as Hset.
  { intros fn. unfold exampleFiles. cbn [reverse rev_append].
    rewrite !elem_of_cons, !elem_of_nil. tauto. }
  split; [exact Hforward|]. split; [exact Hbackward|]. split; [exact Hset|].
  exact (main_depends_on_file_set examplePosition exampleOpen exampleParser
           forwardOrder backwardOrder exampleFiles ("gone.go" :: reverse exampleFiles)
           Hforward Hbackward Hset).
Defined.

Lemma parseFiles_packages_witness :
  exists pkg,
    (parseFiles exampleParser exampleFiles).1 !! "geom" = Some pkg
    /\ PName pkg = "geom"
    /\ exists fn, is_Some (Files pkg !! fn).
Proof.
  destruct ((parseFiles exampleParser exampleFiles).1 !! "geom") as [pkg|] eqn:Hpkg;
    [|vm_compute in Hpkg; discriminate].
  exists pkg. split; [reflexivity|].
  destruct (parseFiles_packages exampleParser exampleFiles "geom" pkg Hpkg)
    as (Hname & Hsome & _).
  split; assumption.
Defined.

Lemma expandSubdirs_files_witness :
  expandSubdirs exampleDisk true ["src"; "point.go"; "notes.txt"; "nowhere.go"] []
  = Some ["src/point.go"; "src/sub/const.go"; "point.go"]
  /\ ["src/point.go"; "src/sub/const.go"; "point.go"]
     = [] ++ concat (map (argFiles exampleDisk true)
                         ["src"; "point.go"; "notes.txt"; "nowhere.go"]).
Proof.
  assert (expandSubdirs exampleDisk true ["src"; "point.go"; "notes.txt"; "nowhere.go"] []
          = Some ["src/point.go"; "src/sub/const.go"; "point.go"]) as Hrun
    by (vm_compute; reflexivity).
  split; [exact Hrun|].
  exact (expandSubdirs_files exampleDisk true
           ["src"; "point.go"; "notes.txt"; "nowhere.go"] [] _ Hrun).
Defined.

Example expandSubdirs_panics_on_missing_base_name :
  expandSubdirs exampleDisk true ["point.go"; "away/ghost"] [] = None
  /\ expandSubdirs exampleDisk false ["point.go"; "away/ghost"] [] = Some ["point.go"].
Proof. split; vm_compute; reflexivity. Qed.

Lemma recursion_walks_base_name_witness :
  os_Stat exampleDisk "src" = Some (directory "src")
  /\ os_Stat exampleDisk "vendor/src" = Some (directory "src")
  /\ expandSubdirs exampleDisk true ["vendor/src"] []
     = Some ["src/point.go"; "src/sub/const.go"]
  /\ expandSubdirs exampleDisk true ["vendor/src"] []
     = expandSubdirs exampleDisk true ["src"] [].
Proof.
  split; [reflexivity|]. split; [reflexivity|]. split; [vm_compute; reflexivity|].
  apply (recursion_walks_base_name exampleDisk "vendor/src" "src"
           (directory "src") (directory "src") []); reflexivity.
Defined.

Lemma taggo_depends_on_argument_set_witness :
  validOrder forwardOrder /\ validOrder backwardOrder
  /\ taggo examplePosition exampleOpen exampleParser exampleDisk true forwardOrder
       ["point.go"; "src"; "const.go"]
     = taggo examplePosition exampleOpen exampleParser exampleDisk true backwardOrder
         ["const.go"; "src"; "point.go"; "src"].
Proof.
  assert (validOrder forwardOrder) as Hforward by (split; intros m; reflexivity).
  assert (validOrder backwardOrder) as Hbackward
    by (split; intros m; apply reverse_Permutation).
  split; [exact Hforward|]. split; [exact Hbackward|].
  apply (taggo_depends_on_argument_set examplePosition exampleOpen exampleParser
           exampleDisk true forwardOrder backwardOrder); try assumption.
  intros fn. rewrite !elem_of_cons, !elem_of_nil. tauto.
Defined.

Lemma sortedTags_count_witness :
  validOrder forwardOrder
  /\ sortedTags examplePosition exampleOpen exampleParser forwardOrder exampleFiles
     = Some exampleTags
  /\ exists visited : list (string * File),
      length exampleTags
      = sum_list (map (fun file : string * File =>
                         sum_list (map declSymbols (Decls file.2))) visited).
Proof.
  assert (validOrder forwardOrder) as Hforward by (split; intros m; reflexivity).
  assert (sortedTags examplePosition exampleOpen exampleParser forwardOrder exampleFiles
          = Some exampleTags) as Hsorted by (vm_compute; reflexivity).
  split; [exact Hforward|]. split; [exact Hsorted|].
  destruct (sortedTags_count examplePosition exampleOpen exampleParser
              forwardOrder exampleFiles exampleTags Hforward Hsorted)
    as (visited & _ & _ & Hlen).
  exists visited. exact Hlen.
Defined.


Lemma taggo_panics_iff_witness :
  validOrder forwardOrder
  /\ taggo examplePosition exampleOpen receiverlessParser receiverlessDisk false
       forwardOrder ["point.go"; "recv.go"] = None
  /\ taggo examplePosition exampleOpen exampleParser exampleDisk true
       forwardOrder ["point.go"; "away/ghost"] = None
  /\ taggo examplePosition exampleOpen receiverlessParser receiverlessDisk true
       forwardOrder ["src"; "point.go"] <> None.
Proof.
  assert (validOrder forwardOrder) as Hforward by (split; intros m; reflexivity).
  split; [exact Hforward|]. split; [|split].
  - apply (taggo_panics_iff examplePosition exampleOpen receiverlessParser receiverlessDisk
             false forwardOrder ["point.go"; "recv.go"] Hforward).
    right. exists "recv.go", "recv.go", receiverlessFile. split; [|split; [|split]].
    + apply list_elem_of_In. right. left. reflexivity.
    + apply list_elem_of_In. left. reflexivity.
    + reflexivity.
    + constructor. reflexivity.
  - apply (taggo_panics_iff examplePosition exampleOpen exampleParser exampleDisk
             true forwardOrder ["point.go"; "away/ghost"] Hforward).
    left. exists "away/ghost", "ghost". split; [|split].
    + apply list_elem_of_In. right. left. reflexivity.
    + reflexivity.
    + constructor. reflexivity.
  - vm_compute. discriminate.
Defined.
